(** * fluent-expressions: regular expressions built by composition

    A shallow embedding of [src/SolidExpression.js] (the fluent class, its
    entry point [Sx] and the helper [makeRanges]) together with the two
    modules it imports, [RegexAst.bs] and [StringifyAst.bs].  The JavaScript
    layer is translated from the source.  The two imported modules are
    compiled ReScript that is not among the sources; they are modelled from
    the specification, and every such definition says so. *)

From Stdlib Require Import ZArith QArith List String Ascii Bool Lia.
From Stdlib Require Import DecimalString Sorting.Sorted Permutation.
Import ListNotations.

Set Warnings "-register-all".

Local Open Scope string_scope.
Local Open Scope Z_scope.

(* ===================================================================== *)
(** ** Errors and results *)
(* ===================================================================== *)

(** What a call can throw.  [AssertionError] is node's [assert] failure
    ([makeRanges]); [Error] is the plain [Error] of [#getRootNode]; the other
    three are the structural errors of the algebra and the serializer. *)
Inductive error : Type :=
| AssertionError (message : string)
| Error (message : string)
| InvalidRangeError
| InvalidGroupNameError
| UnsupportedQuantifierRangeError.

Inductive result (A : Type) : Type :=
| Ok (a : A)
| Err (e : error).
Arguments Ok {A} a.
Arguments Err {A} e.

Definition rbind {A B} (r : result A) (k : A -> result B) : result B :=
  match r with
  | Ok a => k a
  | Err e => Err e
  end.

(* ===================================================================== *)
(** ** Small string helpers *)
(* ===================================================================== *)

Definition str1 (c : ascii) : string := String c EmptyString.

(** [s.startsWith(c)] for a one-character [c]. *)
Definition startsWith (c : ascii) (s : string) : bool :=
  match s with
  | String a _ => Ascii.eqb a c
  | EmptyString => false
  end.

(** [s.endsWith(c)] for a one-character [c]. *)
Fixpoint endsWith (c : ascii) (s : string) : bool :=
  match s with
  | EmptyString => false
  | String a EmptyString => Ascii.eqb a c
  | String _ r => endsWith c r
  end.

(** [s.replace(/^\^/, "")]: drop one leading [c]. *)
Definition dropLeading (c : ascii) (s : string) : string :=
  match s with
  | String a r => if Ascii.eqb a c then r else s
  | EmptyString => EmptyString
  end.

(** [s.replace(/\$$/, "")]: drop one trailing [c]. *)
Fixpoint dropTrailing (c : ascii) (s : string) : string :=
  match s with
  | EmptyString => EmptyString
  | String a EmptyString => if Ascii.eqb a c then EmptyString else s
  | String a r => String a (dropTrailing c r)
  end.

Definition mem_ascii (c : ascii) (l : list ascii) : bool :=
  existsb (Ascii.eqb c) l.

(** Decimal rendering of an integer. *)
Definition Z_to_string (z : Z) : string :=
  NilEmpty.string_of_int (Z.to_int z).

(* ===================================================================== *)
(** ** The node algebra ([RegexAst.bs]) *)
(* ===================================================================== *)

Module RegexAst.

(** Modelled from the spec: the tags of the [BuiltIn] variant, declared in
    the missing [RegexAst.bs]. *)
Inductive BuiltInTag : Type :=
| Whitespace | Digit | Word | Tab | Linebreak | AnyChar.

(** Modelled from the spec: the direction of a [Lookaround]; only [Ahead]
    is ever built. *)
Inductive Direction : Type := Ahead | Behind.

(** Modelled from the spec: the [Node] tagged union of the data model; the
    module that declares it ([RegexAst.bs]) is missing from the sources. *)
Inductive Node : Type :=
| Empty
| Literal (fragment : string) (escaped : bool)
| Sequence (children : list Node)
| Alternation (children : list Node)
| Quantified (child : Node) (min : Z) (max : option Z) (lazy : bool)
| Group (child : Node) (name : option string)
| Lookaround (child : Node) (direction : Direction) (negate : bool)
| CharClass (chars : list ascii) (ranges : list (string * string))
            (negate : bool)
| BuiltIn (tag : BuiltInTag).

(** Modelled from the spec: the root wrapper, a node with its anchors and
    flags. *)
Record RootNode : Type := mkRoot {
  node : Node;
  prefix : string;
  suffix : string;
  flags : string
}.

(** Modelled from the spec: the argument of the missing [createRoot], as the
    class constructor builds it: every field may be absent. *)
Record RootParams : Type := mkParams {
  p_prefix : option string;
  p_suffix : option string;
  p_flags : option string;
  p_source : option string;
  p_node : option Node;
  p_sanitize : option bool
}.

(** Modelled from the spec: the metacharacters the Literal Sanitizer
    escapes, [. * + ? ^ $ { } ( ) | [ ] \ /]. *)
Definition metachars : list ascii :=
  list_ascii_of_string ".*+?^${}()|[]\/".

(** Modelled from the spec: the Literal Sanitizer puts a backslash before
    every metacharacter. *)
Fixpoint escape (s : string) : string :=
  match s with
  | EmptyString => EmptyString
  | String c r =>
      if mem_ascii c metachars
      then String "\" (String c (escape r))
      else String c (escape r)
  end.

(** Modelled from the spec: the baseline flags of a root. *)
Definition default_flags : string := "gi".

(** Modelled from the spec: a source becomes a [Literal] fragment, escaped
    when [sanitize] asks for it; an empty or absent source is [Empty]. *)
Definition node_of_source (source : option string) (sanitize : bool) : Node :=
  match source with
  | None => Empty
  | Some EmptyString => Empty
  | Some s => Literal (if sanitize then escape s else s) sanitize
  end.

(** Modelled from the spec: [createRoot] pairs the node (the given one, or
    the literal of the source) with the anchors and the flags; absent
    anchors are empty and absent flags are the baseline ["gi"]. *)
Definition createRoot (p : RootParams) : RootNode :=
  {| node := match p_node p with
             | Some n => n
             | None => node_of_source (p_source p)
                         (match p_sanitize p with
                          | Some b => b
                          | None => false
                          end)
             end;
     prefix := match p_prefix p with Some s => s | None => "" end;
     suffix := match p_suffix p with Some s => s | None => "" end;
     flags := match p_flags p with Some s => s | None => default_flags end |}.

(** Modelled from the spec: the accessors of the root wrapper, exported by
    the missing [RegexAst.bs]; each setter returns a new root that differs
    in one field. *)
Definition getNode (r : RootNode) : Node := node r.

(** Modelled from the spec: [setNode] replaces the node and carries the
    anchors and the flags over. *)
Definition setNode (r : RootNode) (n : Node) : RootNode :=
  {| node := n; prefix := prefix r; suffix := suffix r; flags := flags r |}.

(** Modelled from the spec: [setPrefix] replaces the start anchor. *)
Definition setPrefix (r : RootNode) (s : string) : RootNode :=
  {| node := node r; prefix := s; suffix := suffix r; flags := flags r |}.

(** Modelled from the spec: [setSuffix] replaces the end anchor. *)
Definition setSuffix (r : RootNode) (s : string) : RootNode :=
  {| node := node r; prefix := prefix r; suffix := s; flags := flags r |}.

(** Modelled from the spec: union of character sets kept as lists without
    repetition; a character already present is not added again. *)
Fixpoint add_chars (fs : list ascii) (cs : list ascii) : list ascii :=
  match cs with
  | [] => fs
  | c :: r => add_chars (if mem_ascii c fs then fs else fs ++ [c]) r
  end.

(** Modelled from the spec: difference of character sets. *)
Definition remove_chars (fs : list ascii) (cs : list ascii) : list ascii :=
  filter (fun c => negb (mem_ascii c cs)) fs.

(** Modelled from the spec: [addFlags] is set union on the flag set; a flag
    already present changes nothing; no flag character is rejected. *)
Definition addFlags (r : RootNode) (fl : string) : RootNode :=
  {| node := node r; prefix := prefix r; suffix := suffix r;
     flags := string_of_list_ascii
                (add_chars (list_ascii_of_string (flags r))
                           (list_ascii_of_string fl)) |}.

(** Modelled from the spec: [removeFlags] is set difference on the flag
    set. *)
Definition removeFlags (r : RootNode) (fl : string) : RootNode :=
  {| node := node r; prefix := prefix r; suffix := suffix r;
     flags := string_of_list_ascii
                (remove_chars (list_ascii_of_string (flags r))
                              (list_ascii_of_string fl)) |}.

(** *** Constructors *)

(** Modelled from the spec: the constant nodes exported by the missing
    [RegexAst.bs]. *)
Definition empty : Node := Empty.

(** Modelled from the spec: the whitespace class. *)
Definition whitespace : Node := BuiltIn Whitespace.

(** Modelled from the spec: the digit class. *)
Definition digit : Node := BuiltIn Digit.

(** Modelled from the spec: the word class. *)
Definition word : Node := BuiltIn Word.

(** Modelled from the spec: the tab character. *)
Definition tab : Node := BuiltIn Tab.

(** Modelled from the spec: the line-break class. *)
Definition linebreak : Node := BuiltIn Linebreak.

(** Modelled from the spec: a [Sequence] on the left is extended, with the
    right operand flattened one level; anything else starts a two-element
    [Sequence]. *)
Definition then_ (a b : Node) : Node :=
  match a with
  | Sequence xs =>
      Sequence (xs ++ match b with Sequence ys => ys | _ => [b] end)
  | _ => Sequence [a; b]
  end.

(** Modelled from the spec: [seq] is the [Sequence] of the given nodes, in
    order. *)
Definition seq (l : list Node) : Node := Sequence l.

(** Modelled from the spec: nested alternations are flattened one level,
    sequences are kept as branches. *)
Definition alt (l : list Node) : Node :=
  Alternation
    (flat_map (fun c => match c with Alternation xs => xs | _ => [c] end) l).

(** Modelled from the spec: [or(a, b)] is the alternation of the two. *)
Definition or_ (a b : Node) : Node := alt [a; b].

(** Modelled from the spec: [zeroOrMore(a, lazy)] is [Quantified(a, 0,
    unbounded)]. *)
Definition zeroOrMore (a : Node) (lazy : bool) : Node :=
  Quantified a 0 None lazy.

(** Modelled from the spec: [oneOrMore(a, lazy)] is [Quantified(a, 1,
    unbounded)]. *)
Definition oneOrMore (a : Node) (lazy : bool) : Node :=
  Quantified a 1 None lazy.

(** Modelled from the spec: [maybe(a, b)] is [then(a, Quantified(b, 0, 1))],
    greedy. *)
Definition maybe (a b : Node) : Node :=
  then_ a (Quantified b 0 (Some 1) false).

(** Modelled from the spec: [anything] appends any character, zero or more
    times. *)
Definition anything (a : Node) (lazy : bool) : Node :=
  then_ a (Quantified (BuiltIn AnyChar) 0 None lazy).

(** Modelled from the spec: [something] appends any character, one or more
    times. *)
Definition something (a : Node) : Node :=
  then_ a (Quantified (BuiltIn AnyChar) 1 None false).

(** Modelled from the spec: the characters of a class, deduplicated. *)
Definition char_set (chars : string) : list ascii :=
  add_chars [] (list_ascii_of_string chars).

(** Modelled from the spec: [anythingBut] appends the negated class of the
    characters, zero or more times. *)
Definition anythingBut (a : Node) (chars : string) (lazy : bool) : Node :=
  then_ a (Quantified (CharClass (char_set chars) [] true) 0 None lazy).

(** Modelled from the spec: [somethingBut] appends the negated class of the
    characters, one or more times. *)
Definition somethingBut (a : Node) (chars : string) : Node :=
  then_ a (Quantified (CharClass (char_set chars) [] true) 1 None false).

(** Modelled from the spec: [anyOf] composes [zeroOrMore] of the class of
    the characters with [then]. *)
Definition anyOf (a : Node) (chars : string) : Node :=
  then_ a (zeroOrMore (CharClass (char_set chars) [] false) false).

(** Modelled from the spec: [someOf] composes [oneOrMore] of the class with
    [then]. *)
Definition someOf (a : Node) (chars : string) : Node :=
  then_ a (oneOrMore (CharClass (char_set chars) [] false) false).

(** Modelled from the spec: [oneOf] composes the class itself with
    [then]. *)
Definition oneOf (a : Node) (chars : string) : Node :=
  then_ a (CharClass (char_set chars) [] false).

(** Modelled from the spec: a pair whose [lo] is lexicographically after
    its [hi]. *)
Definition inverted (p : string * string) : bool :=
  String.ltb (snd p) (fst p).

(** Modelled from the spec: [ranges(a, pairs, negate)] builds the
    [CharClass] of the validated pairs (the spec names no composition with
    [a] for this constructor) and fails on an inverted pair. *)
Definition ranges (a : Node) (pairs : list (string * string))
           (negate : bool) : result Node :=
  if existsb inverted pairs then Err InvalidRangeError
  else Ok (CharClass [] pairs negate).

(** Modelled from the spec: [followedBy] wraps [b] in a positive lookahead
    and appends it with [then]. *)
Definition followedBy (a b : Node) : Node :=
  then_ a (Lookaround b Ahead false).

(** Modelled from the spec: [notFollowedBy] does the same with a negative
    lookahead. *)
Definition notFollowedBy (a b : Node) : Node :=
  then_ a (Lookaround b Ahead true).

(** Modelled from the spec: [repeat] wraps in [Quantified]; an omitted
    [max] is unbounded.  The data model has no absent [min]: an omitted
    [min] is stored as the lower bound 0. *)
Definition repeat (a : Node) (min max : option Z) : Node :=
  Quantified a (match min with Some m => m | None => 0 end) max false.

(** Modelled from the spec: [repeatExact] sets [min = max = n]. *)
Definition repeatExact (a : Node) (n : option Z) : Node := repeat a n n.

(** Modelled from the spec: an ASCII digit. *)
Definition is_digit (c : ascii) : bool :=
  let n := N_of_ascii c in ((48 <=? n) && (n <=? 57))%N.

(** Modelled from the spec: an ASCII word character: a letter, a digit or
    the underscore. *)
Definition is_word_char (c : ascii) : bool :=
  let n := N_of_ascii c in
  (is_digit c || ((65 <=? n) && (n <=? 90)) || ((97 <=? n) && (n <=? 122))
   || (n =? 95))%N.

(** Modelled from the spec: a group name is made of ASCII word characters
    and does not start with a digit. *)
Definition valid_group_name (s : string) : bool :=
  match s with
  | EmptyString => false
  | String c _ =>
      negb (is_digit c) && forallb is_word_char (list_ascii_of_string s)
  end.

(** Modelled from the spec: [group] wraps in [Group] and fails with
    [InvalidGroupNameError] on a name outside the grammar. *)
Definition group (a : Node) (name : option string) : result Node :=
  match name with
  | None => Ok (Group a None)
  | Some s =>
      if valid_group_name s then Ok (Group a (Some s))
      else Err InvalidGroupNameError
  end.

End RegexAst.

(* ===================================================================== *)
(** ** The serializer ([StringifyAst.bs]) *)
(* ===================================================================== *)

Module StringifyAst.
Import RegexAst.

(** Modelled from the spec: the non-capturing group the serializer wraps a
    fragment in. *)
Definition nonCapturing (s : string) : string := "(?:" ++ s ++ ")".

(** Modelled from the spec: a fragment is atomic when it is a single
    character, a built-in class, a [Group] or a [CharClass]. *)
Definition atomic (n : Node) : bool :=
  match n with
  | Literal f _ => Nat.eqb (String.length f) 1
  | BuiltIn _ => true
  | Group _ _ => true
  | CharClass _ _ _ => true
  | _ => false
  end.

(** Modelled from the spec: the quantifier suffix, with the shortest
    standard token where one exists. *)
Definition quantifier (min : Z) (max : option Z) : string :=
  match max with
  | None =>
      if min =? 1 then "+"
      else if min =? 0 then "*"
      else "{" ++ Z_to_string min ++ ",}"
  | Some mx =>
      if (min =? 0) && (mx =? 1) then "?"
      else if min =? mx then "{" ++ Z_to_string min ++ "}"
      else "{" ++ Z_to_string min ++ "," ++ Z_to_string mx ++ "}"
  end.

(** Modelled from the spec: the native token of each built-in class; the
    line break is the alternation of the three line endings. *)
Definition builtin (t : BuiltInTag) : string :=
  match t with
  | Whitespace => "\s"
  | Digit => "\d"
  | Word => "\w+"
  | Tab => "\t"
  | Linebreak => "(?:\r\n|\r|\n)"
  | AnyChar => "."
  end.

(** Modelled from the spec: the characters escaped inside a class,
    [ ] ^ - \ ]. *)
Definition class_metachars : list ascii := list_ascii_of_string "]^-\".

(** Modelled from the spec: escaping inside a class. *)
Fixpoint class_escape (cs : list ascii) : string :=
  match cs with
  | [] => EmptyString
  | c :: r =>
      if mem_ascii c class_metachars
      then String "\" (String c (class_escape r))
      else String c (class_escape r)
  end.

(** Modelled from the spec: a range renders as [lo-hi]. *)
Definition class_range (p : string * string) : string :=
  class_escape (list_ascii_of_string (fst p)) ++ "-"
  ++ class_escape (list_ascii_of_string (snd p)).

(** Modelled from the spec: a class renders its characters, then its
    ranges, between brackets, after [^] when negated. *)
Definition charClass (chars : list ascii) (rs : list (string * string))
           (negate : bool) : string :=
  "[" ++ (if negate then "^" else "") ++ class_escape chars
  ++ String.concat "" (map class_range rs) ++ "]".

(** Modelled from the spec: the opening token of a lookaround, [(?=] or
    [(?!]; the lookbehind tokens are never produced, as no constructor
    builds [Behind]. *)
Definition lookaround (d : Direction) (negate : bool) : string :=
  match d, negate with
  | Ahead, false => "(?="
  | Ahead, true => "(?!"
  | Behind, false => "(?<="
  | Behind, true => "(?<!"
  end.

(** Modelled from the spec: both bounds finite and [min > max]; the
    serializer fails on it with [UnsupportedQuantifierRangeError]. *)
Definition bad_range (min : Z) (max : option Z) : bool :=
  match max with
  | Some mx => mx <? min
  | None => false
  end.

(** Modelled from the spec: the recursive renderer.  A [Sequence] wraps an
    [Alternation] child; a [Quantified] wraps a child that is not atomic;
    the branches of an [Alternation] are joined bare. *)
Fixpoint render (n : Node) : result string :=
  match n with
  | Empty => Ok ""
  | Literal f _ => Ok f
  | Sequence cs =>
      (fix go (l : list Node) : result string :=
         match l with
         | [] => Ok ""
         | c :: r =>
             rbind (render c) (fun s =>
             rbind (go r) (fun t =>
             Ok ((match c with
                  | Alternation _ => nonCapturing s
                  | _ => s
                  end) ++ t)))
         end) cs
  | Alternation cs =>
      rbind
        ((fix go (l : list Node) : result (list string) :=
            match l with
            | [] => Ok []
            | c :: r =>
                rbind (render c) (fun s =>
                rbind (go r) (fun t => Ok (s :: t)))
            end) cs)
        (fun parts => Ok (String.concat "|" parts))
  | Quantified c min max lazy =>
      if bad_range min max then Err UnsupportedQuantifierRangeError
      else
        rbind (render c) (fun s =>
        Ok ((if atomic c then s else nonCapturing s)
            ++ quantifier min max ++ (if lazy then "?" else "")))
  | Group c name =>
      rbind (render c) (fun s =>
      Ok (match name with
          | None => "(" ++ s ++ ")"
          | Some nm => "(?<" ++ nm ++ ">" ++ s ++ ")"
          end))
  | Lookaround c d negate =>
      rbind (render c) (fun s => Ok (lookaround d negate ++ s ++ ")"))
  | CharClass chars rs negate => Ok (charClass chars rs negate)
  | BuiltIn t => Ok (builtin t)
  end.

(** Modelled from the spec: how a [Sequence] renders one child, grouping it
    when it is an [Alternation]. *)
Definition renderInSequence (c : Node) : result string :=
  rbind (render c) (fun s =>
  Ok (match c with Alternation _ => nonCapturing s | _ => s end)).

(** Modelled from the spec: the canonical order of the flags, which the
    spec leaves open, is taken to be ascending character code; it is the
    order in which the host prints [d g i m s u v y]. *)
Fixpoint insert_flag (c : ascii) (l : list ascii) : list ascii :=
  match l with
  | [] => [c]
  | d :: r =>
      if (N_of_ascii c <? N_of_ascii d)%N then c :: l
      else if (N_of_ascii c =? N_of_ascii d)%N then l
      else d :: insert_flag c r
  end.

(** Modelled from the spec: the flags sorted, each once. *)
Definition canonical (l : list ascii) : list ascii :=
  fold_right insert_flag [] l.

(** Modelled from the spec: the flag set joined with no separator, in
    canonical order. *)
Definition renderFlags (fl : string) : string :=
  string_of_list_ascii (canonical (list_ascii_of_string fl)).

(** Modelled from the spec: what [stringify] returns. *)
Record Rendered : Type := mkRendered { source : string; rflags : string }.

(** Modelled from the spec: [stringify] renders the body between the
    anchors and the flags in canonical order. *)
Definition stringify (r : RootNode) : result Rendered :=
  rbind (render (node r)) (fun body =>
  Ok {| source := prefix r ++ body ++ suffix r;
        rflags := renderFlags (flags r) |}).

End StringifyAst.

(* ===================================================================== *)
(** ** The store of expression objects *)
(* ===================================================================== *)

(** JavaScript values as the entry points inspect them.  A number is kept as
    its [toString()] rendering, the only thing [of] reads from it; [VExpr]
    is a reference to a [SolidExpression] instance; [VOther] stands for any
    other object, function, symbol or bigint. *)
Definition loc : Type := nat.

Inductive value : Type :=
| VUndefined
| VNull
| VBoolean (b : bool)
| VNumber (repr : string)
| VString (s : string)
| VRegExp (source flags : string)
| VExpr (l : loc)
| VOther (tag : string).

(** Numbers as [repeat] and [repeatExactly] coerce them: a finite number is
    the rational it denotes. *)
Inductive number : Type :=
| NaN
| Infinity (negative : bool)
| Finite (q : Q).

Definition wrap32 (z : Z) : Z :=
  let m := z mod 2 ^ 32 in
  if m <? 2 ^ 31 then m else m - 2 ^ 32.

(** [x | 0], that is ToInt32: truncate toward zero, wrap modulo 2^32 into
    the signed range; NaN and the infinities give 0. *)
Definition ToInt32 (x : number) : Z :=
  match x with
  | Finite q => wrap32 (Z.quot (Qnum q) (Zpos (Qden q)))
  | _ => 0
  end.

(** Possibly nested arrays of range bounds, as [flat(Infinity)] sees them. *)
Inductive jsarr : Type :=
| Elem (s : string)
| Arr (items : list jsarr).

Fixpoint flat (a : jsarr) : list string :=
  match a with
  | Elem s => [s]
  | Arr items => flat_map flat items
  end.

(** The argument of [anyOf] and its siblings: a string (or number) or an
    array of them; [[value].flat().join("")] concatenates the pieces. *)
Inductive charsArg : Type :=
| One (s : string)
| Many (l : list string).

Definition joinChars (v : charsArg) : string :=
  match v with
  | One s => s
  | Many l => String.concat "" l
  end.

(** The process state: the instances allocated so far (an instance made by
    [new SolidExpression(null, false)] has no root yet), the latch and the
    output of the argument-type warning, and [NODE_ENV === "production"]. *)
Record state : Type := mkState {
  heap : list (option RegexAst.RootNode);
  warned : bool;
  console : list string;
  production : bool
}.

Definition M (A : Type) : Type := state -> result A * state.

Definition ret {A} (a : A) : M A := fun st => (Ok a, st).
Definition lift {A} (r : result A) : M A := fun st => (r, st).
Definition bind {A B} (m : M A) (k : A -> M B) : M B :=
  fun st =>
    match m st with
    | (Ok a, st') => k a st'
    | (Err e, st') => (Err e, st')
    end.

Notation "x <- m ;; k" := (bind m (fun x => k))
  (at level 100, m at next level, right associativity).
Notation "m ;;; k" := (bind m (fun _ => k))
  (at level 100, right associativity).

Fixpoint mapM {A B} (f : A -> M B) (l : list A) : M (list B) :=
  match l with
  | [] => ret []
  | a :: r => b <- f a ;; bs <- mapM f r ;; ret (b :: bs)
  end.

Definition lookup (st : state) (l : loc) : option RegexAst.RootNode :=
  match nth_error (heap st) l with
  | Some (Some r) => Some r
  | _ => None
  end.

Fixpoint store_at {A} (l : nat) (x : A) (h : list A) : list A :=
  match h, l with
  | [], _ => []
  | _ :: r, O => x :: r
  | y :: r, S l' => y :: store_at l' x r
  end.

(** Allocation appends to the store; nothing is ever freed. *)
Definition grow (st : state) (ext : list (option RegexAst.RootNode)) : state :=
  mkState (heap st ++ ext) (warned st) (console st) (production st).

(** [new SolidExpression(null, false)]: a fresh instance without a root. *)
Definition new_uninit : M loc :=
  fun st => (Ok (List.length (heap st)), grow st [None]).

(** [x.#rootNode = r]. *)
Definition set_rootNode (l : loc) (r : RegexAst.RootNode) : M unit :=
  fun st =>
    (Ok tt,
     mkState (store_at l (Some r) (heap st)) (warned st) (console st)
             (production st)).

(** [this.#rootNode]; a reference without a root cannot be operated on. *)
Definition rootNode (l : loc) : M RegexAst.RootNode :=
  fun st =>
    match lookup st l with
    | Some r => (Ok r, st)
    | None => (Err (Error "not an instance of SolidVerbs"), st)
    end.

(* ===================================================================== *)
(** ** [makeRanges] *)
(* ===================================================================== *)

(** The loop of [makeRanges]: consecutive elements two by two.  It runs
    only on lists of even length. *)
Fixpoint rangePairs (l : list string) : list (string * string) :=
  match l with
  | a :: b :: r => (a, b) :: rangePairs r
  | _ => []
  end.

Definition makeRanges (ranges : list jsarr) : result (list (string * string)) :=
  let flatRanges := flat_map flat ranges in
  if Nat.even (List.length flatRanges) then Ok (rangePairs flatRanges)
  else Err (AssertionError "Expected even number of elements").

(* ===================================================================== *)
(** ** The class [SolidExpression] *)
(* ===================================================================== *)

Module SolidExpression.
Import RegexAst.

(** The constructor with [init = true]: the root is made by
    [createRoot] from the fields of the argument. *)
Definition new_ (arg : RootParams) : M loc :=
  fun st => (Ok (List.length (heap st)), grow st [Some (createRoot arg)]).

(** A root object read as a constructor argument: it has the fields
    [prefix], [suffix], [node] and [flags], and neither [source] nor
    [sanitize]. *)
Definition asParams (r : RootNode) : RootParams :=
  {| p_prefix := Some (prefix r); p_suffix := Some (suffix r);
     p_flags := Some (flags r); p_source := None;
     p_node := Some (node r); p_sanitize := None |}.

Definition from (arg : RootParams) : M loc := new_ arg.

Definition preSanitize (v : value) : RootParams :=
  match v with
  | VRegExp src fl =>
      let source := if String.eqb src "(?:)" then "" else src in
      let prefix := if startsWith "^" source then "^" else "" in
      let suffix := if endsWith "$" source then "$" else "" in
      {| p_source := Some (dropTrailing "$" (dropLeading "^" source));
         p_flags := Some fl;
         p_sanitize := Some false;
         p_prefix := Some prefix;
         p_suffix := Some suffix;
         p_node := None |}
  | VNumber repr =>
      {| p_source := Some repr; p_sanitize := Some false;
         p_flags := None; p_prefix := None; p_suffix := None;
         p_node := None |}
  | VString s =>
      {| p_source := Some s; p_sanitize := Some true;
         p_flags := None; p_prefix := None; p_suffix := None;
         p_node := None |}
  | _ =>
      {| p_source := Some ""; p_sanitize := Some false;
         p_flags := None; p_prefix := None; p_suffix := None;
         p_node := None |}
  end.

Definition of_ (x : value) : M loc :=
  match x with
  | VExpr l => ret l
  | _ => new_ (preSanitize x)
  end.

(** [#getRootNode(x).node] for an instance [x]. *)
Definition nodeOf (l : loc) : M Node :=
  r <- rootNode l ;; ret (node r).

Definition static_or (xs : list value) : M loc :=
  verbals <- mapM of_ xs ;;
  nodes <- mapM nodeOf verbals ;;
  from {| p_node := Some (alt nodes); p_prefix := None; p_suffix := None;
          p_flags := None; p_source := None; p_sanitize := None |}.

Definition static_seq (xs : list value) : M loc :=
  verbals <- mapM of_ xs ;;
  nodes <- mapM nodeOf verbals ;;
  from {| p_node := Some (seq nodes); p_prefix := None; p_suffix := None;
          p_flags := None; p_source := None; p_sanitize := None |}.

(** The static instances, in the order the class body creates them. *)
Definition whitespace : loc := 0%nat.
Definition empty : loc := 1%nat.
Definition digit : loc := 2%nat.
Definition tab : loc := 3%nat.
Definition word : loc := 4%nat.
Definition linebreak : loc := 5%nat.
Definition any : loc := 6%nat.

Definition onlyNode (n : Node) : RootParams :=
  {| p_node := Some n; p_prefix := None; p_suffix := None;
     p_flags := None; p_source := None; p_sanitize := None |}.

Definition statics : list (option RootNode) :=
  map (fun n => Some (createRoot (onlyNode n)))
      [RegexAst.whitespace; RegexAst.empty; RegexAst.digit; RegexAst.tab;
       RegexAst.word; RegexAst.linebreak; something RegexAst.empty].

(** *** Utility *)

Definition setPrefix_ (this : loc) (prefix : string) : M loc :=
  newInstance <- new_uninit ;;
  r <- rootNode this ;;
  set_rootNode newInstance (setPrefix r prefix) ;;;
  ret newInstance.

Definition setSuffix_ (this : loc) (suffix : string) : M loc :=
  newInstance <- new_uninit ;;
  r <- rootNode this ;;
  set_rootNode newInstance (setSuffix r suffix) ;;;
  ret newInstance.

Definition dflt {A} (d : A) (o : option A) : A :=
  match o with Some a => a | None => d end.

(** *** Rules *)

Definition assertStartOfLine (this : loc) (enable : option bool) : M loc :=
  setPrefix_ this (if dflt true enable then "^" else "").

Definition assertEndOfLine (this : loc) (enable : option bool) : M loc :=
  setSuffix_ this (if dflt true enable then "$" else "").

Definition then_ (this : loc) (v : value) : M loc :=
  r <- rootNode this ;;
  x <- of_ v ;;
  rx <- rootNode x ;;
  from (asParams (setNode (setSuffix r "")
                          (RegexAst.then_ (getNode r) (node rx)))).

Definition maybe (this : loc) (v : value) : M loc :=
  r <- rootNode this ;;
  x <- of_ v ;;
  rx <- rootNode x ;;
  from (asParams (setNode (setSuffix r "")
                          (RegexAst.maybe (getNode r) (node rx)))).

Definition or_ (this : loc) (v : value) : M loc :=
  r <- rootNode this ;;
  x <- of_ v ;;
  rx <- rootNode x ;;
  from (asParams (setNode r (RegexAst.or_ (getNode r) (node rx)))).

Definition anything (this : loc) (lazy : option bool) : M loc :=
  r <- rootNode this ;;
  from (asParams (setNode r (RegexAst.anything (getNode r)
                                               (dflt false lazy)))).

Definition anythingBut (this : loc) (v : charsArg) (lazy : option bool)
  : M loc :=
  r <- rootNode this ;;
  from (asParams (setNode r (RegexAst.anythingBut (getNode r) (joinChars v)
                                                  (dflt false lazy)))).

Definition something (this : loc) : M loc :=
  r <- rootNode this ;;
  from (asParams (setNode r (RegexAst.something (getNode r)))).

Definition somethingBut (this : loc) (v : charsArg) : M loc :=
  r <- rootNode this ;;
  from (asParams (setNode r (RegexAst.somethingBut (getNode r)
                                                   (joinChars v)))).

Definition anyOf (this : loc) (v : charsArg) : M loc :=
  r <- rootNode this ;;
  from (asParams (setNode r (RegexAst.anyOf (getNode r) (joinChars v)))).

Definition someOf (this : loc) (v : charsArg) : M loc :=
  r <- rootNode this ;;
  from (asParams (setNode r (RegexAst.someOf (getNode r) (joinChars v)))).

Definition oneOf (this : loc) (v : charsArg) : M loc :=
  r <- rootNode this ;;
  from (asParams (setNode r (RegexAst.oneOf (getNode r) (joinChars v)))).

Definition any_ (this : loc) (v : charsArg) : M loc := anyOf this v.

Definition assertNotFollowedBy (this : loc) (v : value) : M loc :=
  r <- rootNode this ;;
  x <- of_ v ;;
  rx <- rootNode x ;;
  from (asParams (setNode r (RegexAst.notFollowedBy (getNode r) (node rx)))).

Definition assertFollowedBy (this : loc) (v : value) : M loc :=
  r <- rootNode this ;;
  x <- of_ v ;;
  rx <- rootNode x ;;
  from (asParams (setNode r (RegexAst.followedBy (getNode r) (node rx)))).

Definition charOfRanges (this : loc) (characterRanges : list jsarr) : M loc :=
  r <- rootNode this ;;
  pairs <- lift (makeRanges characterRanges) ;;
  n <- lift (RegexAst.ranges (getNode r) pairs false) ;;
  from (asParams (setNode r n)).

Definition charNotOfRanges (this : loc) (characterRanges : list jsarr)
  : M loc :=
  r <- rootNode this ;;
  pairs <- lift (makeRanges characterRanges) ;;
  n <- lift (RegexAst.ranges (getNode r) pairs true) ;;
  from (asParams (setNode r n)).

(** *** Special characters *)

Definition lineBreak (this : loc) : M loc := then_ this (VExpr linebreak).
Definition br (this : loc) : M loc := lineBreak this.
Definition tab_ (this : loc) : M loc := then_ this (VExpr tab).
Definition word_ (this : loc) : M loc := then_ this (VExpr word).
Definition digit_ (this : loc) : M loc := then_ this (VExpr digit).
Definition whitespace_ (this : loc) : M loc :=
  then_ this (VExpr whitespace).

(** *** Modifiers *)

Definition addFlag (this : loc) (flag : option string) : M loc :=
  r <- rootNode this ;;
  from (asParams (addFlags r (dflt "" flag))).

Definition removeFlag (this : loc) (flag : string) : M loc :=
  r <- rootNode this ;;
  from (asParams (removeFlags r flag)).

Definition withAnyCase (this : loc) (enable : option bool) : M loc :=
  if dflt true enable then addFlag this (Some "i") else removeFlag this "i".

Definition stopAtFirst (this : loc) (enable : option bool) : M loc :=
  if dflt true enable then addFlag this (Some "g") else removeFlag this "g".

Definition searchOneLine (this : loc) (enable : option bool) : M loc :=
  if dflt true enable then removeFlag this "m" else addFlag this (Some "m").

(** *** Loops *)

(** [min != null ? min | 0 : void 0] *)
Definition coerce (n : option number) : option Z := option_map ToInt32 n.

Definition repeat (this : loc) (min max : option number) : M loc :=
  r <- rootNode this ;;
  from (asParams (setNode r (RegexAst.repeat (getNode r) (coerce min)
                                             (coerce max)))).

Definition repeatExactly (this : loc) (n : option number) : M loc :=
  r <- rootNode this ;;
  from (asParams (setNode r (RegexAst.repeatExact (getNode r) (coerce n)))).

Definition oneOrMore (this : loc) : M loc :=
  r <- rootNode this ;;
  from (asParams (setNode r (RegexAst.oneOrMore (getNode r) false))).

(** The source passes [lazy] to [setNode], which takes two arguments, and
    not to [zeroOrMore]. *)
Definition zeroOrMore (this : loc) (lazy : option bool) : M loc :=
  r <- rootNode this ;;
  from (asParams (setNode r (RegexAst.zeroOrMore (getNode r) false))).

(** *** Capture groups *)

Definition capture (this : loc) (name : option string) : M loc :=
  r <- rootNode this ;;
  n <- lift (RegexAst.group (getNode r) name) ;;
  from (asParams (setNode r n)).

(** *** Miscellaneous *)

(** [compile]: the regular expression object is identified with the
    source and the flags it is constructed from. *)
Definition compile (this : loc) : M StringifyAst.Rendered :=
  r <- rootNode this ;;
  lift (StringifyAst.stringify r).

End SolidExpression.

(* ===================================================================== *)
(** ** The entry point [Sx] *)
(* ===================================================================== *)

Definition warningText : string :=
  "Argument type is not supported. Returning empty Solid.".

(** [warnArgType = writeWarning(...)]: the closure latches on [warned]. *)
Definition warnArgType : M unit :=
  fun st =>
    if warned st then (Ok tt, st)
    else (Ok tt,
          mkState (heap st) true (console st ++ [warningText])
                  (production st)).

Definition nullish (v : value) : bool :=
  match v with
  | VUndefined | VNull => true
  | _ => false
  end.

(** [typeof value] is ["string"] or ["number"], or [value] is a [RegExp] or
    a [SolidExpression]. *)
Definition accepted (v : value) : bool :=
  match v with
  | VString _ | VNumber _ | VRegExp _ _ | VExpr _ => true
  | _ => false
  end.

Definition Sx (v : value) : M loc :=
  if negb (nullish v) && accepted v then SolidExpression.of_ v
  else
    (fun st =>
       if negb (nullish v) && negb (production st) then warnArgType st
       else (Ok tt, st)) ;;;
    ret SolidExpression.empty.

(** The state once the module is loaded: the static instances exist, no
    warning has been written. *)
Definition initial (prod : bool) : state :=
  mkState SolidExpression.statics false [] prod.

(* ===================================================================== *)
(** ** The fluent operations as data *)
(* ===================================================================== *)

(** One constructor per instance method of the class ([group],
    [followedBy] and [notFollowedBy] are aliases of [capture],
    [assertFollowedBy] and [assertNotFollowedBy]). *)
Inductive op : Type :=
| AssertStartOfLine (enable : option bool)
| AssertEndOfLine (enable : option bool)
| Then (v : value)
| Maybe (v : value)
| Or (v : value)
| Anything (lazy : option bool)
| AnythingBut (v : charsArg) (lazy : option bool)
| Something
| SomethingBut (v : charsArg)
| AnyOf (v : charsArg)
| SomeOf (v : charsArg)
| OneOf (v : charsArg)
| Any (v : charsArg)
| AssertNotFollowedBy (v : value)
| AssertFollowedBy (v : value)
| CharOfRanges (characterRanges : list jsarr)
| CharNotOfRanges (characterRanges : list jsarr)
| LineBreak
| Br
| Tab
| Word
| Digit
| Whitespace
| AddFlag (flag : option string)
| RemoveFlag (flag : string)
| WithAnyCase (enable : option bool)
| StopAtFirst (enable : option bool)
| SearchOneLine (enable : option bool)
| Repeat (min max : option number)
| RepeatExactly (n : option number)
| OneOrMore
| ZeroOrMore (lazy : option bool)
| Capture (name : option string).

Definition apply (o : op) (this : loc) : M loc :=
  match o with
  | AssertStartOfLine enable => SolidExpression.assertStartOfLine this enable
  | AssertEndOfLine enable => SolidExpression.assertEndOfLine this enable
  | Then v => SolidExpression.then_ this v
  | Maybe v => SolidExpression.maybe this v
  | Or v => SolidExpression.or_ this v
  | Anything lazy => SolidExpression.anything this lazy
  | AnythingBut v lazy => SolidExpression.anythingBut this v lazy
  | Something => SolidExpression.something this
  | SomethingBut v => SolidExpression.somethingBut this v
  | AnyOf v => SolidExpression.anyOf this v
  | SomeOf v => SolidExpression.someOf this v
  | OneOf v => SolidExpression.oneOf this v
  | Any v => SolidExpression.any_ this v
  | AssertNotFollowedBy v => SolidExpression.assertNotFollowedBy this v
  | AssertFollowedBy v => SolidExpression.assertFollowedBy this v
  | CharOfRanges rs => SolidExpression.charOfRanges this rs
  | CharNotOfRanges rs => SolidExpression.charNotOfRanges this rs
  | LineBreak => SolidExpression.lineBreak this
  | Br => SolidExpression.br this
  | Tab => SolidExpression.tab_ this
  | Word => SolidExpression.word_ this
  | Digit => SolidExpression.digit_ this
  | Whitespace => SolidExpression.whitespace_ this
  | AddFlag flag => SolidExpression.addFlag this flag
  | RemoveFlag flag => SolidExpression.removeFlag this flag
  | WithAnyCase enable => SolidExpression.withAnyCase this enable
  | StopAtFirst enable => SolidExpression.stopAtFirst this enable
  | SearchOneLine enable => SolidExpression.searchOneLine this enable
  | Repeat min max => SolidExpression.repeat this min max
  | RepeatExactly n => SolidExpression.repeatExactly this n
  | OneOrMore => SolidExpression.oneOrMore this
  | ZeroOrMore lazy => SolidExpression.zeroOrMore this lazy
  | Capture name => SolidExpression.capture this name
  end.

(** The anchors and the flags of the result, read off the methods. *)
Definition suffix_after (o : op) (s : string) : string :=
  match o with
  | AssertEndOfLine enable => if SolidExpression.dflt true enable then "$" else ""
  | Then _ | Maybe _ | LineBreak | Br | Tab | Word | Digit | Whitespace => ""
  | _ => s
  end.

Definition prefix_after (o : op) (s : string) : string :=
  match o with
  | AssertStartOfLine enable =>
      if SolidExpression.dflt true enable then "^" else ""
  | _ => s
  end.

Definition flags_after (o : op) (fl : string) : string :=
  let add c := RegexAst.flags (RegexAst.addFlags (RegexAst.mkRoot RegexAst.Empty "" "" fl) c) in
  let remove c := RegexAst.flags (RegexAst.removeFlags (RegexAst.mkRoot RegexAst.Empty "" "" fl) c) in
  match o with
  | AddFlag flag => add (SolidExpression.dflt "" flag)
  | RemoveFlag flag => remove flag
  | WithAnyCase enable =>
      if SolidExpression.dflt true enable then add "i" else remove "i"
  | StopAtFirst enable =>
      if SolidExpression.dflt true enable then add "g" else remove "g"
  | SearchOneLine enable =>
      if SolidExpression.dflt true enable then remove "m" else add "m"
  | _ => fl
  end.

(** The scenario of the first test: the UUID expression. *)
Definition int (z : Z) : option number := Some (Finite (inject_Z z)).

Definition uuid : M StringifyAst.Rendered :=
  e <- Sx VUndefined ;;
  hexBlock <- SolidExpression.charOfRanges e
                [Arr [Elem "0"; Elem "9"]; Arr [Elem "a"; Elem "f"]] ;;
  h8 <- SolidExpression.repeatExactly hexBlock (int 8) ;;
  h8d <- SolidExpression.then_ h8 (VString "-") ;;
  h4 <- SolidExpression.repeatExactly hexBlock (int 4) ;;
  h4d <- SolidExpression.then_ h4 (VString "-") ;;
  h4d3 <- SolidExpression.repeatExactly h4d (int 3) ;;
  x <- SolidExpression.then_ h8d (VExpr h4d3) ;;
  h12 <- SolidExpression.repeatExactly hexBlock (int 12) ;;
  y <- SolidExpression.then_ x (VExpr h12) ;;
  z <- SolidExpression.withAnyCase y None ;;
  fx <- SolidExpression.searchOneLine z None ;;
  SolidExpression.compile fx.

(** A node renders when no quantifier in it has its bounds inverted. *)
Fixpoint wellFormed (n : RegexAst.Node) : bool :=
  match n with
  | RegexAst.Sequence cs | RegexAst.Alternation cs => forallb wellFormed cs
  | RegexAst.Quantified c mn mx _ =>
      negb (StringifyAst.bad_range mn mx) && wellFormed c
  | RegexAst.Group c _ | RegexAst.Lookaround c _ _ => wellFormed c
  | _ => true
  end.

(** A reference that denotes an initialised instance. *)
Definition live (st : state) (l : loc) : Prop :=
  exists r, lookup st l = Some r.

(** An argument value is usable when an expression among it is live. *)
Definition liveValue (st : state) (v : value) : Prop :=
  match v with
  | VExpr l => live st l
  | _ => True
  end.

(** The host never builds a regular expression with a repeated flag. *)
Definition valueOk (v : value) : Prop :=
  match v with
  | VRegExp _ fl => NoDup (list_ascii_of_string fl)
  | _ => True
  end.

(** The static instances are in place. *)
Definition loaded (st : state) : Prop :=
  exists ext, heap st = (SolidExpression.statics ++ ext)%list.

(* ===================================================================== *)
(** ** Predicates on stores and computations *)
(* ===================================================================== *)

(** [st'] is [st] with more instances; nothing else differs. *)
Definition extends (st st' : state) : Prop := exists ext, st' = grow st ext.

(** A computation that, whatever it returns, only allocates. *)
Definition allocates {A} (m : M A) : Prop :=
  forall st, extends st (snd (m st)).

(** The result of an operation: a live instance that did not exist before,
    in a store that extends the old one. *)
Definition produced (st : state) (l' : loc) (st' : state)
           (r' : RegexAst.RootNode) : Prop :=
  extends st st' /\ (List.length (heap st) <= l')%nat
  /\ lookup st' l' = Some r'.

(** The error of [makeRanges]. *)
Definition oddCountError : error :=
  AssertionError "Expected even number of elements".

(** The canonical order of flag characters. *)
Definition before (a b : ascii) : Prop := (N_of_ascii a < N_of_ascii b)%N.

(** A root whose flags have no repeated character; a store all of whose
    roots are so. *)
Definition rootOk (r : RegexAst.RootNode) : Prop :=
  NoDup (list_ascii_of_string (RegexAst.flags r)).

Definition flagsOk (st : state) : Prop :=
  forall l r, lookup st l = Some r -> rootOk r.

(** An operation whose regular-expression argument, if any, comes from the
    host. *)
Definition opOk (o : op) : Prop :=
  match o with
  | Then v | Maybe v | Or v | AssertNotFollowedBy v | AssertFollowedBy v =>
      valueOk v
  | _ => True
  end.

(** [m] keeps the invariant, and what it returns satisfies [Q]. *)
Definition keeps {A} (m : M A) (Q : A -> Prop) : Prop :=
  forall st, flagsOk st ->
    flagsOk (snd (m st)) /\ forall a, fst (m st) = Ok a -> Q a.

(* ===================================================================== *)
(** ** Chains of calls and what their arguments denote *)
(* ===================================================================== *)

(** A chain of fluent calls, [e.op1(...).op2(...)...]: each call is made on
    the result of the one before. *)
Fixpoint chain (os : list op) (this : loc) : M loc :=
  match os with
  | [] => ret this
  | o :: r => x <- apply o this ;; chain r x
  end.

(** The bounds of a list of pairs, in order. *)
Definition pairBounds (ps : list (string * string)) : list string :=
  flat_map (fun p => [fst p; snd p]) ps.


(** The node [SolidExpression.of(v).#rootNode.node] of an argument: the
    node of an expression, the node made from the sanitized value
    otherwise. *)
Definition valueNode (st : state) (v : value) : RegexAst.Node :=
  match v with
  | VExpr l =>
      match lookup st l with
      | Some r => RegexAst.node r
      | None => RegexAst.Empty
      end
  | _ => RegexAst.node (RegexAst.createRoot (SolidExpression.preSanitize v))
  end.

(** The methods that set the start anchor, and those that set flags. *)
Definition setsPrefix (o : op) : bool :=
  match o with
  | AssertStartOfLine _ => true
  | _ => false
  end.

Definition setsFlags (o : op) : bool :=
  match o with
  | AddFlag _ | RemoveFlag _ | WithAnyCase _ | StopAtFirst _
  | SearchOneLine _ => true
  | _ => false
  end.

(** The methods that take an expression-like value. *)
Definition valueMethods : list (value -> op) :=
  [Then; Maybe; Or; AssertNotFollowedBy; AssertFollowedBy].

(** The flags of a root as a list of characters, and membership in it. *)
Definition hasFlag (c : ascii) (r : RegexAst.RootNode) : bool :=
  mem_ascii c (list_ascii_of_string (RegexAst.flags r)).

(* ===================================================================== *)
(** ** Induction on nodes *)
(* ===================================================================== *)

Section NodeInduction.
Import RegexAst.
Variable P : Node -> Prop.
Hypothesis HEmpty : P Empty.
Hypothesis HLiteral : forall f e, P (Literal f e).
Hypothesis HSequence : forall cs, Forall P cs -> P (Sequence cs).
Hypothesis HAlternation : forall cs, Forall P cs -> P (Alternation cs).
Hypothesis HQuantified :
  forall c mn mx lz, P c -> P (Quantified c mn mx lz).
Hypothesis HGroup : forall c nm, P c -> P (Group c nm).
Hypothesis HLookaround : forall c d ng, P c -> P (Lookaround c d ng).
Hypothesis HCharClass : forall cs rs ng, P (CharClass cs rs ng).
Hypothesis HBuiltIn : forall t, P (BuiltIn t).

Fixpoint Node_nested_ind (n : Node) : P n :=
  match n with
  | Empty => HEmpty
  | Literal f e => HLiteral f e
  | Sequence cs =>
      HSequence cs
        ((fix all (l : list Node) : Forall P l :=
            match l with
            | [] => Forall_nil P
            | c :: r => Forall_cons c (Node_nested_ind c) (all r)
            end) cs)
  | Alternation cs =>
      HAlternation cs
        ((fix all (l : list Node) : Forall P l :=
            match l with
            | [] => Forall_nil P
            | c :: r => Forall_cons c (Node_nested_ind c) (all r)
            end) cs)
  | Quantified c mn mx lz => HQuantified c mn mx lz (Node_nested_ind c)
  | Group c nm => HGroup c nm (Node_nested_ind c)
  | Lookaround c d ng => HLookaround c d ng (Node_nested_ind c)
  | CharClass cs rs ng => HCharClass cs rs ng
  | BuiltIn t => HBuiltIn t
  end.
End NodeInduction.

(* ===================================================================== *)
(** ** Properties of the serializer *)
(* ===================================================================== *)

Section Rendering.
Import RegexAst StringifyAst.

Lemma render_Sequence_cons c r :
  render (Sequence (c :: r)) =
  rbind (renderInSequence c) (fun s =>
  rbind (render (Sequence r)) (fun t => Ok (s ++ t))).
Proof.
  unfold renderInSequence. simpl.
  destruct (render c) as [s|e]; simpl; [|reflexivity].
  reflexivity.
Qed.

Lemma render_Sequence_nil : render (Sequence []) = Ok "".
Proof. reflexivity. Qed.

Lemma append_empty_r (s : string) : s ++ "" = s.
Proof. induction s; simpl; congruence. Qed.

Lemma append_assoc (a b c : string) : (a ++ b) ++ c = a ++ b ++ c.
Proof. induction a; simpl; congruence. Qed.

Lemma render_Alternation_total cs :
  Forall (fun c => wellFormed c = true -> exists s, render c = Ok s) cs ->
  forallb wellFormed cs = true ->
  exists parts,
    (fix go (l : list Node) : result (list string) :=
       match l with
       | [] => Ok []
       | c :: r =>
           rbind (render c) (fun s => rbind (go r) (fun t => Ok (s :: t)))
       end) cs = Ok parts.
Proof.
  induction 1 as [|c r Hc _ IH]; simpl; intros Hwf.
  - now exists [].
  - apply andb_true_iff in Hwf as [Hw1 Hw2].
    destruct (Hc Hw1) as [s ->]. destruct (IH Hw2) as [t ->].
    simpl. now exists (s :: t).
Qed.

Lemma render_Sequence_total cs :
  Forall (fun c => wellFormed c = true -> exists s, render c = Ok s) cs ->
  forallb wellFormed cs = true ->
  exists s, render (Sequence cs) = Ok s.
Proof.
  induction 1 as [|c r Hc _ IH]; intros Hwf.
  - now exists "".
  - simpl in Hwf. apply andb_true_iff in Hwf as [Hw1 Hw2].
    rewrite render_Sequence_cons. unfold renderInSequence.
    destruct (Hc Hw1) as [s ->]. destruct (IH Hw2) as [t ->].
    simpl. eauto.
Qed.

(** Rendering succeeds on every well-formed node. *)
Lemma render_total n : wellFormed n = true -> exists s, render n = Ok s.
Proof.
  induction n using Node_nested_ind; intros Hwf.
  - now exists "".
  - now exists f.
  - now apply render_Sequence_total.
  - destruct (render_Alternation_total cs H Hwf) as [parts Hp].
    simpl. rewrite Hp. simpl. eauto.
  - simpl in Hwf. apply andb_true_iff in Hwf as [Hb Hw].
    apply negb_true_iff in Hb. simpl. rewrite Hb.
    destruct (IHn Hw) as [s ->]. simpl. eauto.
  - simpl in Hwf. destruct (IHn Hwf) as [s Hs]. simpl. rewrite Hs.
    simpl. eauto.
  - simpl in Hwf. destruct (IHn Hwf) as [s Hs]. simpl. rewrite Hs.
    simpl. eauto.
  - simpl. eauto.
  - simpl. eauto.
Qed.

Lemma renderInSequence_total n :
  wellFormed n = true -> exists s, renderInSequence n = Ok s.
Proof.
  intros Hwf. unfold renderInSequence.
  destruct (render_total n Hwf) as [s ->]. simpl. eauto.
Qed.

(** C1.  For all nodes [a] and [b], [Quantified(Sequence [a, b], 2, 4)]
    renders exactly when the sequence does, as the non-capturing group of
    the whole rendered sequence followed by [{2,4}]: the sequence is not
    atomic, so the repetition applies to the unit [a b] and never to [b]
    alone.  When [a] and [b] are well formed the source is produced, and the
    root's anchors go outside the group. *)
Theorem C1_quantified_sequence_is_grouped (a b : Node) :
  atomic (Sequence [a; b]) = false
  /\ render (Quantified (Sequence [a; b]) 2 (Some 4) false)
     = rbind (render (Sequence [a; b]))
             (fun body => Ok ("(?:" ++ body ++ "){2,4}"))
  /\ render (Sequence [a; b])
     = rbind (renderInSequence a) (fun ra =>
       rbind (renderInSequence b) (fun rb => Ok (ra ++ rb)))
  /\ (wellFormed a = true -> wellFormed b = true ->
      exists ra rb,
        renderInSequence a = Ok ra /\ renderInSequence b = Ok rb
        /\ render (Quantified (Sequence [a; b]) 2 (Some 4) false)
           = Ok ("(?:" ++ ra ++ rb ++ "){2,4}")
        /\ forall p s fl,
             stringify (mkRoot (Quantified (Sequence [a; b]) 2 (Some 4) false)
                               p s fl)
             = Ok {| source := p ++ ("(?:" ++ ra ++ rb ++ "){2,4}") ++ s;
                     rflags := renderFlags fl |}).
Proof.
  assert (Hq : render (Quantified (Sequence [a; b]) 2 (Some 4) false)
               = rbind (render (Sequence [a; b]))
                       (fun body => Ok ("(?:" ++ body ++ "){2,4}"))).
  { change (render (Quantified (Sequence [a; b]) 2 (Some 4) false))
      with (rbind (render (Sequence [a; b])) (fun s =>
            Ok (nonCapturing s ++ quantifier 2 (Some 4) ++ ""))).
    destruct (render (Sequence [a; b])) as [body|e]; [|reflexivity].
    simpl. unfold nonCapturing.
    change (quantifier 2 (Some 4) ++ "") with "{2,4}".
    f_equal. simpl. f_equal. f_equal. f_equal.
    now rewrite !append_assoc. }
  assert (Hseq : render (Sequence [a; b])
                 = rbind (renderInSequence a) (fun ra =>
                   rbind (renderInSequence b) (fun rb => Ok (ra ++ rb)))).
  { rewrite !render_Sequence_cons, render_Sequence_nil.
    destruct (renderInSequence a) as [ra|e]; [|reflexivity].
    destruct (renderInSequence b) as [rb|e]; [|reflexivity].
    simpl. now rewrite append_empty_r. }
  split; [reflexivity|]. split; [exact Hq|]. split; [exact Hseq|].
  intros Ha Hb.
  destruct (renderInSequence_total a Ha) as [ra Hra].
  destruct (renderInSequence_total b Hb) as [rb Hrb].
  assert (Hq' : render (Quantified (Sequence [a; b]) 2 (Some 4) false)
                = Ok ("(?:" ++ ra ++ rb ++ "){2,4}")).
  { rewrite Hq, Hseq, Hra, Hrb. simpl. now rewrite !append_assoc. }
  exists ra, rb. repeat split; auto.
  intros p s fl. unfold stringify.
  cbn [node prefix suffix flags]. rewrite Hq'. reflexivity.
Qed.

Lemma C1_quantified_sequence_is_grouped_witness :
  exists ra rb,
    renderInSequence (Literal "a" true) = Ok ra
    /\ renderInSequence (Alternation [Literal "b" true; Literal "c" true])
       = Ok rb
    /\ render (Quantified
                 (Sequence [Literal "a" true;
                            Alternation [Literal "b" true; Literal "c" true]])
                 2 (Some 4) false)
       = Ok ("(?:" ++ ra ++ rb ++ "){2,4}").
Proof.
  destruct (C1_quantified_sequence_is_grouped
              (Literal "a" true)
              (Alternation [Literal "b" true; Literal "c" true]))
    as (_ & _ & _ & H).
  destruct (H eq_refl eq_refl) as (ra & rb & Ha & Hb & Hq & _).
  exists ra, rb. repeat split; assumption.
Defined.

End Rendering.

(* ===================================================================== *)
(** ** The store only grows *)
(* ===================================================================== *)

Section Store.
Import RegexAst SolidExpression.

Lemma grow_nil st : grow st [] = st.
Proof. destruct st; unfold grow; simpl. now rewrite app_nil_r. Qed.

Lemma grow_grow st a b : grow (grow st a) b = grow st (a ++ b).
Proof. unfold grow; simpl. now rewrite app_assoc. Qed.

Lemma lookup_lt st l r : lookup st l = Some r -> (l < List.length (heap st))%nat.
Proof.
  unfold lookup. intros H. apply nth_error_Some.
  destruct (nth_error (heap st) l); congruence.
Qed.

Lemma lookup_grow_lt st ext l :
  (l < List.length (heap st))%nat -> lookup (grow st ext) l = lookup st l.
Proof.
  intros H. unfold lookup, grow; simpl. now rewrite nth_error_app1.
Qed.

Lemma lookup_grow_old st ext l r :
  lookup st l = Some r -> lookup (grow st ext) l = Some r.
Proof.
  intros H. rewrite lookup_grow_lt; [assumption|]. eapply lookup_lt; eauto.
Qed.

Lemma lookup_grow_at st pre r post :
  lookup (grow st (pre ++ Some r :: post)) (List.length (heap st ++ pre))
  = Some r.
Proof.
  unfold lookup, grow; simpl.
  rewrite app_assoc, nth_error_app2 by lia.
  now rewrite Nat.sub_diag.
Qed.

Lemma lookup_grow_new st r :
  lookup (grow st [Some r]) (List.length (heap st)) = Some r.
Proof.
  pose proof (lookup_grow_at st [] r []) as H.
  simpl in H. now rewrite app_nil_r in H.
Qed.

Lemma store_at_new {A} (h : list A) (x y : A) :
  store_at (List.length h) x (h ++ [y]) = (h ++ [x])%list.
Proof. induction h as [|a h IH]; simpl; [reflexivity | now rewrite IH]. Qed.

Lemma extends_refl st : extends st st.
Proof. exists []. now rewrite grow_nil. Qed.

Lemma extends_trans a b c : extends a b -> extends b c -> extends a c.
Proof. intros [x ->] [y ->]. exists (x ++ y)%list. apply grow_grow. Qed.

Lemma extends_lookup st st' l r :
  extends st st' -> lookup st l = Some r -> lookup st' l = Some r.
Proof. intros [ext ->]. apply lookup_grow_old. Qed.

Lemma allocates_ret {A} (a : A) : allocates (ret a).
Proof. intros st. apply extends_refl. Qed.

Lemma allocates_lift {A} (r : result A) : allocates (lift r).
Proof. intros st. apply extends_refl. Qed.

Lemma allocates_bind {A B} (m : M A) (k : A -> M B) :
  allocates m -> (forall a, allocates (k a)) -> allocates (bind m k).
Proof.
  intros Hm Hk st. unfold bind. specialize (Hm st).
  destruct (m st) as [[a|e] st1]; simpl in *; [|assumption].
  eapply extends_trans; [eassumption | apply Hk].
Qed.

Lemma allocates_rootNode l : allocates (rootNode l).
Proof.
  intros st. unfold rootNode. destruct (lookup st l); apply extends_refl.
Qed.

Lemma allocates_new arg : allocates (new_ arg).
Proof. intros st. now eexists. Qed.

Lemma allocates_from arg : allocates (from arg).
Proof. apply allocates_new. Qed.

Lemma allocates_of v : allocates (of_ v).
Proof.
  destruct v; simpl; try apply allocates_new. apply allocates_ret.
Qed.

Lemma rootNode_live st l r :
  lookup st l = Some r -> rootNode l st = (Ok r, st).
Proof. intros H. unfold rootNode. now rewrite H. Qed.

Lemma rootNode_inv {st l r st'} :
  rootNode l st = (Ok r, st') -> st' = st /\ lookup st l = Some r.
Proof.
  unfold rootNode. destruct (lookup st l); intros H; inversion H; auto.
Qed.

Lemma lookup_grow_uninit st l :
  lookup st l = None -> lookup (grow st [None]) l = None.
Proof.
  intros H. destruct (Nat.lt_ge_cases l (List.length (heap st))) as [Hl|Hl].
  - now rewrite lookup_grow_lt.
  - unfold lookup, grow; simpl. rewrite nth_error_app2 by assumption.
    destruct (l - List.length (heap st))%nat as [|[|n]]; reflexivity.
Qed.

(** The private setters write the root of the instance they have just
    created, and of no other. *)
Lemma setPrefix_run this p st :
  setPrefix_ this p st =
  match lookup st this with
  | Some r => (Ok (List.length (heap st)), grow st [Some (setPrefix r p)])
  | None => (Err (Error "not an instance of SolidVerbs"), grow st [None])
  end.
Proof.
  unfold setPrefix_, bind, new_uninit, rootNode.
  destruct (lookup st this) as [r|] eqn:E.
  - rewrite (lookup_grow_old st [None] this r E).
    unfold set_rootNode, ret, grow; simpl. now rewrite store_at_new.
  - now rewrite (lookup_grow_uninit st this E).
Qed.

Lemma setSuffix_run this s st :
  setSuffix_ this s st =
  match lookup st this with
  | Some r => (Ok (List.length (heap st)), grow st [Some (setSuffix r s)])
  | None => (Err (Error "not an instance of SolidVerbs"), grow st [None])
  end.
Proof.
  unfold setSuffix_, bind, new_uninit, rootNode.
  destruct (lookup st this) as [r|] eqn:E.
  - rewrite (lookup_grow_old st [None] this r E).
    unfold set_rootNode, ret, grow; simpl. now rewrite store_at_new.
  - now rewrite (lookup_grow_uninit st this E).
Qed.

Lemma allocates_setPrefix this p : allocates (setPrefix_ this p).
Proof.
  intros st. rewrite setPrefix_run.
  destruct (lookup st this); simpl; now eexists.
Qed.

Lemma allocates_setSuffix this s : allocates (setSuffix_ this s).
Proof.
  intros st. rewrite setSuffix_run.
  destruct (lookup st this); simpl; now eexists.
Qed.

Lemma createRoot_asParams r : createRoot (asParams r) = r.
Proof. now destruct r. Qed.

Lemma of_run v st :
  (exists l, v = VExpr l /\ of_ v st = (Ok l, st))
  \/ ((forall l, v <> VExpr l)
      /\ of_ v st = (Ok (List.length (heap st)),
                     grow st [Some (createRoot (preSanitize v))])).
Proof.
  destruct v; try (right; split; [congruence | reflexivity]).
  left. now exists l.
Qed.

(** The three shapes the methods have. *)
Lemma node_method_run (f : RootNode -> RootNode) this st r :
  lookup st this = Some r ->
  (r0 <- rootNode this ;; from (asParams (f r0))) st
  = (Ok (List.length (heap st)), grow st [Some (f r)]).
Proof.
  intros H. unfold bind. rewrite (rootNode_live _ _ _ H).
  unfold from, new_. now rewrite createRoot_asParams.
Qed.

Lemma node_method_inv (f : RootNode -> RootNode) this st l' st' :
  (r0 <- rootNode this ;; from (asParams (f r0))) st = (Ok l', st') ->
  exists r, lookup st this = Some r
            /\ l' = List.length (heap st) /\ st' = grow st [Some (f r)].
Proof.
  intros H. destruct (lookup st this) as [r|] eqn:E.
  - rewrite (node_method_run f this st r E) in H. inversion H. eauto.
  - unfold bind, rootNode in H. rewrite E in H. discriminate.
Qed.

Lemma fallible_method_inv (g : RootNode -> result Node) this st l' st' :
  (r0 <- rootNode this ;; n <- lift (g r0) ;; from (asParams (setNode r0 n)))
    st = (Ok l', st') ->
  exists r n, lookup st this = Some r /\ g r = Ok n
              /\ l' = List.length (heap st)
              /\ st' = grow st [Some (setNode r n)].
Proof.
  intros H. unfold bind, rootNode, lift in H.
  destruct (lookup st this) as [r|] eqn:E; [|discriminate].
  destruct (g r) as [n|e] eqn:G; [|discriminate].
  unfold from, new_ in H. rewrite createRoot_asParams in H.
  inversion H. eauto 10.
Qed.

Lemma value_method_inv (f : RootNode -> RootNode -> RootNode)
      this v st l' st' :
  (r0 <- rootNode this ;; x <- of_ v ;; rx <- rootNode x ;;
   from (asParams (f r0 rx))) st = (Ok l', st') ->
  exists r rx pre,
    lookup st this = Some r
    /\ l' = List.length (heap st ++ pre)
    /\ st' = grow st (pre ++ [Some (f r rx)])
    /\ ((exists x, v = VExpr x /\ lookup st x = Some rx /\ pre = [])
        \/ ((forall x, v <> VExpr x) /\ rx = createRoot (preSanitize v)
            /\ pre = [Some rx])).
Proof.
  intros H. unfold bind at 1 in H. unfold rootNode at 1 in H.
  destruct (lookup st this) as [r|] eqn:E; [|discriminate].
  unfold bind at 1 in H.
  destruct (of_run v st) as [(x & -> & Hx) | (Hne & Hx)]; rewrite Hx in H.
  - unfold bind, rootNode in H.
    destruct (lookup st x) as [rx|] eqn:Ex; [|discriminate].
    unfold from, new_ in H. rewrite createRoot_asParams in H. inversion H.
    exists r, rx, []. rewrite app_nil_r. simpl. repeat split; eauto.
  - unfold bind in H. rewrite (rootNode_live _ _ _ (lookup_grow_new st _)) in H.
    unfold from, new_ in H. rewrite createRoot_asParams, grow_grow in H.
    inversion H.
    exists r, (createRoot (preSanitize v)), [Some (createRoot (preSanitize v))].
    simpl. repeat split; auto.
Qed.

Lemma value_method_total (f : RootNode -> RootNode -> RootNode)
      this v st r :
  lookup st this = Some r -> liveValue st v ->
  exists l' st',
    (r0 <- rootNode this ;; x <- of_ v ;; rx <- rootNode x ;;
     from (asParams (f r0 rx))) st = (Ok l', st').
Proof.
  intros H Hv. unfold bind at 1. rewrite (rootNode_live _ _ _ H).
  unfold bind at 1.
  destruct (of_run v st) as [(x & -> & Hx) | (Hne & Hx)]; rewrite Hx.
  - destruct Hv as [rx Hrx]. unfold bind. rewrite (rootNode_live _ _ _ Hrx).
    unfold from, new_. eauto.
  - unfold bind. rewrite (rootNode_live _ _ _ (lookup_grow_new st _)).
    unfold from, new_. eauto.
Qed.

End Store.

(* ===================================================================== *)
(** ** What every fluent operation does to the store *)
(* ===================================================================== *)

Section Operations.
Import RegexAst SolidExpression.

Ltac unfold_methods :=
  unfold assertStartOfLine, assertEndOfLine, br, lineBreak, tab_, word_,
    digit_, whitespace_, any_, withAnyCase, stopAtFirst, searchOneLine in *;
  unfold then_, maybe, or_, anything, anythingBut, something, somethingBut,
    anyOf, someOf, oneOf, assertNotFollowedBy, assertFollowedBy,
    charOfRanges, charNotOfRanges, addFlag, removeFlag, repeat,
    repeatExactly, oneOrMore, zeroOrMore, capture in *.

Ltac allocation :=
  repeat first
    [ apply allocates_setPrefix
    | apply allocates_setSuffix
    | apply allocates_rootNode
    | apply allocates_of
    | apply allocates_from
    | apply allocates_lift
    | apply allocates_ret
    | apply allocates_bind; [|intros]
    | match goal with
      | |- allocates (if ?b then _ else _) => destruct b
      end ].

Lemma apply_allocates o this : allocates (apply o this).
Proof. destruct o; cbn [apply]; unfold_methods; allocation. Qed.

Lemma produced_new st r' :
  produced st (List.length (heap st)) (grow st [Some r']) r'.
Proof.
  repeat split; [now eexists | lia | apply lookup_grow_new].
Qed.

Lemma produced_at st pre r' :
  produced st (List.length (heap st ++ pre)) (grow st (pre ++ [Some r'])) r'.
Proof.
  repeat split; [now eexists | rewrite length_app; lia
                | apply lookup_grow_at].
Qed.

Ltac invert_method H :=
  first
    [ apply node_method_inv in H; destruct H as (r & Hr & -> & ->);
      exists r; eexists; split; [exact Hr|]; split; [apply produced_new|]
    | apply value_method_inv in H;
      destruct H as (r & rx & pre & Hr & -> & -> & _);
      exists r; eexists; split; [exact Hr|]; split; [apply produced_at|]
    | apply fallible_method_inv in H;
      destruct H as (r & n & Hr & _ & -> & ->);
      exists r; eexists; split; [exact Hr|]; split; [apply produced_new|] ].

Lemma apply_inv o this st l' st' :
  apply o this st = (Ok l', st') ->
  exists r r',
    lookup st this = Some r /\ produced st l' st' r'
    /\ prefix r' = prefix_after o (prefix r)
    /\ suffix r' = suffix_after o (suffix r)
    /\ flags r' = flags_after o (flags r).
Proof.
  intros H. destruct o; cbn [apply] in H; unfold_methods;
    try (destruct (dflt true enable) eqn:En);
    try solve [invert_method H;
               cbn [prefix_after suffix_after flags_after prefix suffix flags
                    setNode setSuffix setPrefix addFlags removeFlags];
               rewrite ?En; auto].
  - rewrite setPrefix_run in H.
    destruct (lookup st this) as [r|] eqn:Hr; inversion H; subst.
    exists r; eexists; split; [reflexivity|]; split; [apply produced_new|].
    cbn. now rewrite En.
  - rewrite setPrefix_run in H.
    destruct (lookup st this) as [r|] eqn:Hr; inversion H; subst.
    exists r; eexists; split; [reflexivity|]; split; [apply produced_new|].
    cbn. now rewrite En.
  - rewrite setSuffix_run in H.
    destruct (lookup st this) as [r|] eqn:Hr; inversion H; subst.
    exists r; eexists; split; [reflexivity|]; split; [apply produced_new|].
    cbn. now rewrite En.
  - rewrite setSuffix_run in H.
    destruct (lookup st this) as [r|] eqn:Hr; inversion H; subst.
    exists r; eexists; split; [reflexivity|]; split; [apply produced_new|].
    cbn. now rewrite En.
  - unfold bind, rootNode, lift in H.
    destruct (lookup st this) as [r|] eqn:Hr; [|discriminate].
    destruct (makeRanges characterRanges) as [pairs|e]; [|discriminate].
    destruct (ranges (getNode r) pairs false) as [n|e]; [|discriminate].
    unfold from, new_ in H. rewrite createRoot_asParams in H.
    inversion H; subst.
    exists r; eexists; split; [reflexivity|]; split; [apply produced_new|].
    now cbn.
  - unfold bind, rootNode, lift in H.
    destruct (lookup st this) as [r|] eqn:Hr; [|discriminate].
    destruct (makeRanges characterRanges) as [pairs|e]; [|discriminate].
    destruct (ranges (getNode r) pairs true) as [n|e]; [|discriminate].
    unfold from, new_ in H. rewrite createRoot_asParams in H.
    inversion H; subst.
    exists r; eexists; split; [reflexivity|]; split; [apply produced_new|].
    now cbn.
Qed.

Lemma produced_result st l' st' r' r'' :
  produced st l' st' r' -> lookup st' l' = Some r'' -> r'' = r'.
Proof. intros (_ & _ & H) H'. congruence. Qed.

Lemma then_total this v st r :
  lookup st this = Some r -> liveValue st v ->
  exists l' st', apply (Then v) this st = (Ok l', st').
Proof. intros. eapply value_method_total; eauto. Qed.

Lemma maybe_total this v st r :
  lookup st this = Some r -> liveValue st v ->
  exists l' st', apply (Maybe v) this st = (Ok l', st').
Proof. intros. eapply value_method_total; eauto. Qed.

Lemma suffix_reintroduced o :
  suffix_after o "" = "$" -> exists enable, o = AssertEndOfLine enable.
Proof. destruct o; cbn; try discriminate. eauto. Qed.

(** C3, as the code has it.  For a live receiver: [then] and [maybe]
    succeed and return an expression whose suffix is empty; [repeat] and
    [repeatExactly] succeed and return an expression that keeps the
    receiver's suffix; the suffix after any operation is [suffix_after] of
    the receiver's; and an operation that turns an empty suffix into ["$"]
    is [assertEndOfLine]. *)
Theorem C3_suffix_after_each_operation (st : state) (this : loc)
        (r : RootNode) :
  lookup st this = Some r ->
  (forall v, liveValue st v ->
     exists l' st' r',
       apply (Then v) this st = (Ok l', st')
       /\ lookup st' l' = Some r' /\ suffix r' = "")
  /\ (forall v, liveValue st v ->
       exists l' st' r',
         apply (Maybe v) this st = (Ok l', st')
         /\ lookup st' l' = Some r' /\ suffix r' = "")
  /\ (forall mn mx,
       exists l' st' r',
         apply (Repeat mn mx) this st = (Ok l', st')
         /\ lookup st' l' = Some r' /\ suffix r' = suffix r)
  /\ (forall n,
       exists l' st' r',
         apply (RepeatExactly n) this st = (Ok l', st')
         /\ lookup st' l' = Some r' /\ suffix r' = suffix r)
  /\ (forall o l' st' r',
       apply o this st = (Ok l', st') -> lookup st' l' = Some r' ->
       suffix r' = suffix_after o (suffix r))
  /\ (forall o l' st' r',
       apply o this st = (Ok l', st') -> lookup st' l' = Some r' ->
       suffix r = "" -> suffix r' = "$" ->
       exists enable, o = AssertEndOfLine enable).
Proof.
  intros Hr.
  assert (Hall : forall o l' st' r',
             apply o this st = (Ok l', st') -> lookup st' l' = Some r' ->
             suffix r' = suffix_after o (suffix r)).
  { intros o l' st' r' H Hl.
    destruct (apply_inv _ _ _ _ _ H) as (r0 & r1 & Hr0 & Hp & _ & Hs & _).
    rewrite (produced_result _ _ _ _ _ Hp Hl).
    assert (r0 = r) by congruence. now subst. }
  repeat split.
  - intros v Hv. destruct (then_total this v st r Hr Hv) as (l' & st' & H).
    destruct (apply_inv _ _ _ _ _ H) as (r0 & r1 & _ & (_ & _ & Hl) & _).
    exists l', st', r1. repeat split; auto. now rewrite (Hall _ _ _ _ H Hl).
  - intros v Hv. destruct (maybe_total this v st r Hr Hv) as (l' & st' & H).
    destruct (apply_inv _ _ _ _ _ H) as (r0 & r1 & _ & (_ & _ & Hl) & _).
    exists l', st', r1. repeat split; auto. now rewrite (Hall _ _ _ _ H Hl).
  - intros mn mx. do 3 eexists. cbn [apply]. unfold repeat.
    rewrite (node_method_run _ this st r Hr).
    split; [reflexivity|]. split; [apply lookup_grow_new | reflexivity].
  - intros n. do 3 eexists. cbn [apply]. unfold repeatExactly.
    rewrite (node_method_run _ this st r Hr).
    split; [reflexivity|]. split; [apply lookup_grow_new | reflexivity].
  - exact Hall.
  - intros o l' st' r' H Hl Hs Hs'. apply suffix_reintroduced.
    pose proof (Hall _ _ _ _ H Hl) as Hafter. rewrite Hs in Hafter.
    congruence.
Qed.

(** The receiver of the witness and of the counterexample: [Sx("a")]
    anchored by [assertEndOfLine(true)], which is instance 8. *)
Lemma C3_suffix_after_each_operation_witness :
  let st := snd ((e <- Sx (VString "a") ;;
                  assertEndOfLine e (Some true)) (initial false)) in
  (exists l' st' r',
     apply (Then (VString "b")) 8%nat st = (Ok l', st')
     /\ lookup st' l' = Some r' /\ suffix r' = "")
  /\ (exists l' st' r',
       apply (Repeat (int 2) (int 4)) 8%nat st = (Ok l', st')
       /\ lookup st' l' = Some r' /\ suffix r' = "$").
Proof.
  intros st.
  destruct (C3_suffix_after_each_operation st 8%nat
              (mkRoot (Literal "a" true) "" "$" "gi") eq_refl)
    as (Hthen & _ & Hrep & _).
  split.
  - exact (Hthen (VString "b") I).
  - exact (Hrep (int 2) (int 4)).
Defined.

(** C3 as stated fails: the receiver has suffix ["$"], and [repeat(2, 4)]
    and [repeatExactly(3)] return expressions whose suffix is still ["$"],
    not empty. *)
Lemma C3_repeat_keeps_the_end_anchor :
  fst ((e <- Sx (VString "a") ;;
        a <- assertEndOfLine e (Some true) ;;
        ra <- rootNode a ;;
        x <- apply (Repeat (int 2) (int 4)) a ;;
        rx <- rootNode x ;;
        y <- apply (RepeatExactly (int 3)) a ;;
        ry <- rootNode y ;;
        ret (suffix ra, suffix rx, suffix ry)) (initial false))
  = Ok ("$", "$", "$")
  /\ "$" <> "".
Proof. split; [vm_compute; reflexivity | discriminate]. Qed.

(** C4.  Every fluent operation, whether it returns or throws, leaves the
    receiver and every other existing expression as it was: its root
    (node, prefix, suffix, flags) is the same, and compiling it gives the
    same source and flags as before.  What the operation returns is an
    instance that did not exist before, so it is not the receiver. *)
Theorem C4_operations_never_change_existing_expressions
        (o : op) (this : loc) (st : state) (r : RootNode) :
  lookup st this = Some r ->
  forall res st', apply o this st = (res, st') ->
    lookup st' this = Some r
    /\ fst (compile this st') = fst (compile this st)
    /\ (forall e re, lookup st e = Some re ->
          lookup st' e = Some re
          /\ fst (compile e st') = fst (compile e st))
    /\ (forall l', res = Ok l' ->
          l' <> this /\ lookup st l' = None
          /\ exists r', lookup st' l' = Some r').
Proof.
  intros Hr res st' H.
  pose proof (apply_allocates o this st) as Hext. rewrite H in Hext.
  simpl in Hext.
  assert (Hframe : forall e re, lookup st e = Some re ->
            lookup st' e = Some re
            /\ fst (compile e st') = fst (compile e st)).
  { intros e re He.
    pose proof (extends_lookup _ _ _ _ Hext He) as He'.
    split; [assumption|]. unfold compile, bind.
    now rewrite (rootNode_live _ _ _ He), (rootNode_live _ _ _ He'). }
  repeat split.
  - apply (Hframe this r Hr).
  - apply (Hframe this r Hr).
  - apply (Hframe e re H0).
  - apply (Hframe e re H0).
  - subst res.
    destruct (apply_inv _ _ _ _ _ H) as (_ & r1 & _ & (_ & Hle & _) & _).
    apply lookup_lt in Hr. lia.
  - subst res.
    destruct (apply_inv _ _ _ _ _ H) as (_ & r1 & _ & (_ & Hle & _) & _).
    destruct (lookup st l') as [x|] eqn:E; [|reflexivity].
    apply lookup_lt in E. lia.
  - subst res.
    destruct (apply_inv _ _ _ _ _ H) as (_ & r1 & _ & (_ & _ & Hl) & _).
    eauto.
Qed.

Lemma C4_operations_never_change_existing_expressions_witness :
  let st := snd (Sx (VString "a") (initial false)) in
  let out := apply (Then (VString "b")) 7%nat st in
  lookup (snd out) 7%nat = Some (mkRoot (Literal "a" true) "" "" "gi")
  /\ fst (compile 7%nat (snd out)) = fst (compile 7%nat st).
Proof.
  intros st out.
  destruct (C4_operations_never_change_existing_expressions
              (Then (VString "b")) 7%nat st
              (mkRoot (Literal "a" true) "" "" "gi") eq_refl
              (fst out) (snd out) (surjective_pairing out))
    as (H1 & H2 & _).
  split; assumption.
Defined.

(** C10.  [of] and [Sx] return an expression instance as it is: the same
    reference, in an unchanged store (nothing is allocated, nothing is
    sanitized again).  Hence [of(of(v))] is [of(v)] for every [v]. *)
Theorem C10_of_returns_an_expression_itself :
  (forall l st, of_ (VExpr l) st = (Ok l, st))
  /\ (forall l st, Sx (VExpr l) st = (Ok l, st))
  /\ (forall v st, (x <- of_ v ;; of_ (VExpr x)) st = of_ v st)
  /\ (forall v st, exists l, fst (of_ v st) = Ok l).
Proof.
  repeat split.
  - intros v st. unfold bind. destruct (of_ v st) as [[l|e] st'] eqn:E.
    + reflexivity.
    + reflexivity.
  - intros v st. destruct v; simpl; eauto.
Qed.

(** C2.  The UUID expression of the first test compiles to the source
    [[0-9a-f]{8}-(?:[0-9a-f]{4}-){3}[0-9a-f]{12}] with the flags [gi],
    in production or not. *)
Theorem C2_uuid_expression (prod : bool) :
  fst (uuid (initial prod))
  = Ok {| StringifyAst.source :=
            "[0-9a-f]{8}-(?:[0-9a-f]{4}-){3}[0-9a-f]{12}";
          StringifyAst.rflags := "gi" |}.
Proof. destruct prod; vm_compute; reflexivity. Qed.

End Operations.

(* ===================================================================== *)
(** ** The sanitizer: native regular expressions *)
(* ===================================================================== *)

Section Sanitizer.
Import RegexAst SolidExpression.

Lemma dropTrailing_endsWith c s :
  s = dropTrailing c s ++ (if endsWith c s then str1 c else "").
Proof.
  induction s as [|a r IH]; [reflexivity|].
  destruct r as [|b r'].
  - simpl. destruct (Ascii.eqb_spec a c) as [->|]; reflexivity.
  - exact (f_equal (String a) IH).
Qed.

Lemma endsWith_cons c a s :
  a <> c -> endsWith c (String a s) = endsWith c s.
Proof.
  intros Hne. destruct s as [|b r]; [|reflexivity].
  simpl. now apply Ascii.eqb_neq.
Qed.

(** A source is its leading [^], if any, then what [#preSanitize] keeps of
    it, then its trailing [$], if any. *)
Lemma anchors_split s :
  s = (if startsWith "^" s then "^" else "")
      ++ dropTrailing "$" (dropLeading "^" s)
      ++ (if endsWith "$" s then "$" else "").
Proof.
  destruct s as [|a r]; [reflexivity|].
  unfold startsWith, dropLeading.
  destruct (Ascii.eqb_spec a "^") as [->|Hne].
  - rewrite endsWith_cons by discriminate.
    change ("^" ++ dropTrailing "$" r ++ (if endsWith "$" r then "$" else ""))
      with (String "^" (dropTrailing "$" r
                        ++ (if endsWith "$" r then str1 "$" else ""))).
    now rewrite <- dropTrailing_endsWith.
  - exact (dropTrailing_endsWith "$" (String a r)).
Qed.

(** C5, as the code has it.  For a native regular expression whose source
    is not [(?:)]: the prefix is ["^"] exactly when the source starts with
    [^], the suffix is ["$"] exactly when it ends with [$], the source handed
    on is the rest, not escaped ([sanitize] is false), and the flags are the
    expression's own; the root made from it has these anchors and flags and
    the unescaped rest as its node, and [of] allocates exactly that root. *)
Theorem C5_native_regex_is_split_not_escaped (src fl : string) :
  src <> "(?:)" ->
  let p := preSanitize (VRegExp src fl) in
  let pre := if startsWith "^" src then "^" else "" in
  let suf := if endsWith "$" src then "$" else "" in
  exists body,
    p = mkParams (Some pre) (Some suf) (Some fl) (Some body) None (Some false)
    /\ src = pre ++ body ++ suf
    /\ createRoot p = mkRoot (node_of_source (Some body) false) pre suf fl
    /\ (body <> "" -> node (createRoot p) = Literal body false)
    /\ forall st,
         of_ (VRegExp src fl) st
         = (Ok (List.length (heap st)),
            grow st [Some (mkRoot (node_of_source (Some body) false)
                                  pre suf fl)]).
Proof.
  intros Hne p pre suf.
  assert (Hs : String.eqb src "(?:)" = false) by now apply String.eqb_neq.
  exists (dropTrailing "$" (dropLeading "^" src)).
  assert (Hp : p = mkParams (Some pre) (Some suf) (Some fl)
                  (Some (dropTrailing "$" (dropLeading "^" src)))
                  None (Some false)).
  { unfold p, preSanitize. now rewrite Hs. }
  repeat split.
  - exact Hp.
  - apply anchors_split.
  - now rewrite Hp.
  - intros Hb. rewrite Hp. cbn.
    destruct (dropTrailing "$" (dropLeading "^" src)); [congruence|reflexivity].
  - intros st. cbn [of_]. unfold new_. fold p. now rewrite Hp.
Qed.

Lemma C5_native_regex_is_split_not_escaped_witness :
  exists body,
    preSanitize (VRegExp "^test_expr$" "m")
    = mkParams (Some "^") (Some "$") (Some "m") (Some body) None (Some false)
    /\ "^test_expr$" = "^" ++ body ++ "$".
Proof.
  destruct (C5_native_regex_is_split_not_escaped "^test_expr$" "m")
    as (body & Hp & Hsplit & _).
  - discriminate.
  - exists body. split; assumption.
Defined.

(** C5 as stated fails on the source [(?:)]: it has no anchor to strip, yet
    the source handed on is empty, and the root gets the [Empty] node. *)
Lemma C5_empty_group_source_is_dropped :
  startsWith "^" "(?:)" = false /\ endsWith "$" "(?:)" = false
  /\ p_source (preSanitize (VRegExp "(?:)" "g")) = Some ""
  /\ p_source (preSanitize (VRegExp "(?:)" "g")) <> Some "(?:)"
  /\ node (createRoot (preSanitize (VRegExp "(?:)" "g"))) = Empty.
Proof. repeat split; try reflexivity. discriminate. Qed.

End Sanitizer.

(* ===================================================================== *)
(** ** The entry point and its warning *)
(* ===================================================================== *)

Section EntryPoint.
Import RegexAst SolidExpression.

(** What [Sx] does on a value of an unsupported type. *)
Lemma Sx_unsupported_run v st :
  accepted v = false ->
  Sx v st =
  (Ok SolidExpression.empty,
   if negb (nullish v) && negb (production st) && negb (warned st)
   then mkState (heap st) true (console st ++ [warningText]) (production st)
   else st).
Proof.
  intros Hv. unfold Sx. rewrite Hv, andb_false_r. unfold bind, warnArgType, ret.
  destruct (nullish v), (production st), (warned st); reflexivity.
Qed.

Lemma Sx_unsupported_many vs : forall st,
  Forall (fun v => accepted v = false) vs ->
  mapM Sx vs st =
  (Ok (map (fun _ => SolidExpression.empty) vs),
   if negb (production st) && negb (warned st)
      && existsb (fun v => negb (nullish v)) vs
   then mkState (heap st) true (console st ++ [warningText]) (production st)
   else st).
Proof.
  induction vs as [|v vs IH]; intros st Hvs.
  - simpl. now rewrite !andb_false_r.
  - inversion Hvs as [|? ? Hv Hvs']; subst.
    cbn [mapM]. unfold bind at 1. rewrite (Sx_unsupported_run v st Hv).
    unfold bind at 1. rewrite (IH _ Hvs'). unfold ret. cbn [map existsb].
    destruct (nullish v), (production st) eqn:Hp, (warned st) eqn:Hw,
      (existsb (fun v0 => negb (nullish v0)) vs);
      cbn [negb andb orb production warned heap console];
      rewrite ?Hp, ?Hw; reflexivity.
Qed.

Lemma loaded_empty st :
  loaded st ->
  lookup st SolidExpression.empty = Some (mkRoot Empty "" "" "gi").
Proof. intros [ext H]. unfold lookup. now rewrite H. Qed.

(** C6, as the code has it.  On a value of an unsupported type [Sx] never
    throws and returns the shared empty expression, whose node is [Empty],
    without allocating.  It writes the warning when the value is neither
    [null] nor [undefined], the process is not in production and the warning
    has not been written yet, and then latches; in every other case it
    writes nothing.  Over any run of such calls the warning is written at
    most once: by the first call that qualifies, and never again. *)
Theorem C6_unsupported_input_warns_once (v : value) (st : state) :
  accepted v = false ->
  fst (Sx v st) = Ok SolidExpression.empty
  /\ heap (snd (Sx v st)) = heap st
  /\ (loaded st ->
      exists r, lookup (snd (Sx v st)) SolidExpression.empty = Some r
                /\ node r = Empty)
  /\ (nullish v = false -> production st = false -> warned st = false ->
      console (snd (Sx v st)) = (console st ++ [warningText])%list
      /\ warned (snd (Sx v st)) = true
      /\ forall vs, Forall (fun w => accepted w = false) vs ->
           console (snd (mapM Sx vs (snd (Sx v st))))
           = (console st ++ [warningText])%list)
  /\ (warned st = true -> snd (Sx v st) = st)
  /\ (nullish v = true -> snd (Sx v st) = st)
  /\ (production st = true -> snd (Sx v st) = st).
Proof.
  intros Hv. rewrite (Sx_unsupported_run v st Hv). cbn [fst snd].
  split; [reflexivity|]. split.
  { destruct (negb (nullish v) && negb (production st) && negb (warned st));
      reflexivity. }
  split.
  { intros Hl. exists (mkRoot Empty "" "" "gi"). split; [|reflexivity].
    apply loaded_empty.
    destruct Hl as [ext Hl].
    destruct (negb (nullish v) && negb (production st) && negb (warned st));
      now exists ext. }
  split.
  { intros Hn Hp Hw. rewrite Hn, Hp, Hw. cbn [negb andb console warned].
    repeat split. intros vs Hvs.
    rewrite (Sx_unsupported_many vs _ Hvs). reflexivity. }
  split; [intros ->; now rewrite !andb_false_r|].
  split; [now intros ->|].
  intros ->. now rewrite andb_false_r.
Qed.

Lemma C6_unsupported_input_warns_once_witness :
  console (snd (Sx (VBoolean true) (initial false))) = [warningText]
  /\ console (snd (mapM Sx [VOther "object"; VBoolean false]
                        (snd (Sx (VBoolean true) (initial false)))))
     = [warningText].
Proof.
  destruct (C6_unsupported_input_warns_once (VBoolean true) (initial false)
              eq_refl) as (_ & _ & _ & H & _).
  destruct (H eq_refl eq_refl eq_refl) as (Hc & _ & Hlater).
  split; [exact Hc|].
  apply (Hlater [VOther "object"; VBoolean false]).
  repeat constructor.
Defined.

(** C6 as stated fails: [null] and [undefined] are not strings, numbers,
    regular expressions or expressions, and the first call with one of them
    writes no warning; nor does any call in production. *)
Lemma C6_null_does_not_warn :
  accepted VNull = false /\ accepted VUndefined = false
  /\ Sx VNull (initial false) = (Ok SolidExpression.empty, initial false)
  /\ Sx VUndefined (initial false) = (Ok SolidExpression.empty, initial false)
  /\ console (snd (Sx VNull (initial false))) = []
  /\ console (snd (Sx (VBoolean true) (initial true))) = [].
Proof. repeat split; reflexivity. Qed.

End EntryPoint.

(* ===================================================================== *)
(** ** Repetition bounds *)
(* ===================================================================== *)

Section Repetition.
Import RegexAst SolidExpression.


Lemma wrap32_small z : 0 <= z < 2 ^ 31 -> wrap32 z = z.
Proof.
  intros Hz. unfold wrap32. rewrite Z.mod_small by lia.
  destruct (Z.ltb_spec z (2 ^ 31)); lia.
Qed.






End Repetition.

(* ===================================================================== *)
(** ** Character ranges *)
(* ===================================================================== *)

Section Ranges.
Import RegexAst SolidExpression.

Lemma ranges_method_run this rs negate st r :
  lookup st this = Some r ->
  (r0 <- rootNode this ;;
   pairs <- lift (makeRanges rs) ;;
   n <- lift (RegexAst.ranges (getNode r0) pairs negate) ;;
   from (asParams (setNode r0 n))) st
  = if Nat.even (List.length (flat_map flat rs)) then
      if existsb inverted (rangePairs (flat_map flat rs))
      then (Err InvalidRangeError, st)
      else (Ok (List.length (heap st)),
            grow st [Some (setNode r (CharClass []
                                        (rangePairs (flat_map flat rs))
                                        negate))])
    else (Err oddCountError, st).
Proof.
  intros Hr. unfold bind at 1. rewrite (rootNode_live _ _ _ Hr).
  unfold bind, lift, makeRanges, RegexAst.ranges.
  destruct (Nat.even (List.length (flat_map flat rs))); [|reflexivity].
  destruct (existsb inverted (rangePairs (flat_map flat rs))); [reflexivity|].
  unfold from, new_. now rewrite createRoot_asParams.
Qed.

(** C9, as the code has it.  On a live receiver, [charOfRanges] and
    [charNotOfRanges] (a) throw the [AssertionError] of [makeRanges] when
    the flattened bounds are odd in number, before [ranges] is called: the
    store is as it was and no node has been built; (b) throw
    [InvalidRangeError] when the number is even and some pair has its lower
    bound lexicographically after its upper bound; (c) otherwise return a
    new expression whose node is the character class of the pairs. *)
Theorem C9_ranges_reject_odd_counts_and_inverted_pairs
        (st : state) (this : loc) (r : RootNode) (rs : list jsarr) :
  lookup st this = Some r ->
  let bounds := flat_map flat rs in
  (Nat.even (List.length bounds) = false ->
     makeRanges rs = Err oddCountError
     /\ charOfRanges this rs st = (Err oddCountError, st)
     /\ charNotOfRanges this rs st = (Err oddCountError, st))
  /\ (Nat.even (List.length bounds) = true ->
      (exists lo hi, In (lo, hi) (rangePairs bounds)
                     /\ String.ltb hi lo = true) ->
      charOfRanges this rs st = (Err InvalidRangeError, st)
      /\ charNotOfRanges this rs st = (Err InvalidRangeError, st))
  /\ (Nat.even (List.length bounds) = true ->
      (forall lo hi, In (lo, hi) (rangePairs bounds) ->
                     String.ltb hi lo = false) ->
      charOfRanges this rs st
      = (Ok (List.length (heap st)),
         grow st [Some (setNode r (CharClass [] (rangePairs bounds) false))])
      /\ charNotOfRanges this rs st
         = (Ok (List.length (heap st)),
            grow st [Some (setNode r (CharClass [] (rangePairs bounds)
                                                true))])).
Proof.
  intros Hr bounds. unfold charOfRanges, charNotOfRanges.
  rewrite !(ranges_method_run this rs _ st r Hr). fold bounds.
  split; [|split].
  - intros Hodd. unfold makeRanges. fold bounds. rewrite Hodd. auto.
  - intros Heven (lo & hi & Hin & Hlt). rewrite Heven.
    assert (Hinv : existsb inverted (rangePairs bounds) = true).
    { apply existsb_exists. exists (lo, hi). split; [assumption|exact Hlt]. }
    rewrite Hinv. auto.
  - intros Heven Hall. rewrite Heven.
    assert (Hinv : existsb inverted (rangePairs bounds) = false).
    { destruct (existsb inverted (rangePairs bounds)) eqn:E; [|reflexivity].
      apply existsb_exists in E as [[lo hi] [Hin Hlt]].
      unfold inverted in Hlt. simpl in Hlt.
      now rewrite (Hall lo hi Hin) in Hlt. }
    rewrite Hinv. auto.
Qed.

Lemma C9_ranges_reject_odd_counts_and_inverted_pairs_witness :
  charOfRanges SolidExpression.empty [Arr [Elem "z"; Elem "a"]]
               (initial false)
  = (Err InvalidRangeError, initial false).
Proof.
  destruct (C9_ranges_reject_odd_counts_and_inverted_pairs
              (initial false) SolidExpression.empty
              (mkRoot Empty "" "" "gi") [Arr [Elem "z"; Elem "a"]] eq_refl)
    as (_ & Hinv & _).
  apply Hinv; [reflexivity|].
  exists "z", "a". split; [now left | reflexivity].
Defined.

(** C9 as stated fails on the error raised for an odd count: it is the
    [AssertionError] of [makeRanges], not an [InvalidRangeError]. *)
Lemma C9_odd_count_raises_an_assertion_error :
  charOfRanges SolidExpression.empty
               [Arr [Elem "a"; Elem "z"]; Arr [Elem "0"]] (initial false)
  = (Err (AssertionError "Expected even number of elements"), initial false)
  /\ AssertionError "Expected even number of elements" <> InvalidRangeError.
Proof. split; [reflexivity | discriminate]. Qed.

End Ranges.

(* ===================================================================== *)
(** ** Flags *)
(* ===================================================================== *)

Section Flags.
Import RegexAst SolidExpression StringifyAst.

Lemma mem_ascii_In c l : mem_ascii c l = true <-> In c l.
Proof.
  unfold mem_ascii. rewrite existsb_exists. split.
  - intros (x & Hin & Heq). apply Ascii.eqb_eq in Heq. now subst.
  - intros Hin. exists c. split; [assumption | apply Ascii.eqb_refl].
Qed.

Lemma mem_ascii_not_In c l : mem_ascii c l = false <-> ~ In c l.
Proof.
  rewrite <- mem_ascii_In. destruct (mem_ascii c l); split; congruence.
Qed.

Lemma NoDup_snoc (c : ascii) l : NoDup l -> ~ In c l -> NoDup (l ++ [c]).
Proof.
  intros Hl Hc. apply NoDup_app; [assumption | repeat constructor; auto |].
  intros x Hx [<-|[]]. contradiction.
Qed.

Lemma NoDup_add_chars cs : forall fs, NoDup fs -> NoDup (add_chars fs cs).
Proof.
  induction cs as [|c cs IH]; intros fs Hfs; simpl; [assumption|].
  apply IH. destruct (mem_ascii c fs) eqn:E; [assumption|].
  apply NoDup_snoc; [assumption | now apply mem_ascii_not_In].
Qed.

Lemma NoDup_remove_chars cs fs : NoDup fs -> NoDup (remove_chars fs cs).
Proof. apply NoDup_filter. Qed.

Lemma add_chars_keeps cs : forall fs x, In x fs -> In x (add_chars fs cs).
Proof.
  induction cs as [|c cs IH]; intros fs x Hx; simpl; [assumption|].
  apply IH. destruct (mem_ascii c fs); [assumption|].
  apply in_or_app. now left.
Qed.

Lemma add_chars_adds cs : forall fs x, In x cs -> In x (add_chars fs cs).
Proof.
  induction cs as [|c cs IH]; intros fs x Hx; simpl; [contradiction|].
  destruct Hx as [<-|Hx]; [|now apply IH].
  apply add_chars_keeps. destruct (mem_ascii c fs) eqn:E.
  - now apply mem_ascii_In.
  - apply in_or_app. right. now left.
Qed.

Lemma add_chars_absorbed cs : forall fs,
  (forall x, In x cs -> In x fs) -> add_chars fs cs = fs.
Proof.
  induction cs as [|c cs IH]; intros fs Hin; simpl; [reflexivity|].
  assert (Hc : mem_ascii c fs = true) by (apply mem_ascii_In, Hin; now left).
  rewrite Hc. apply IH. intros x Hx. apply Hin. now right.
Qed.

Lemma add_chars_idempotent fs cs :
  add_chars (add_chars fs cs) cs = add_chars fs cs.
Proof. apply add_chars_absorbed. intros x. apply add_chars_adds. Qed.

Lemma addFlags_idempotent r fl : addFlags (addFlags r fl) fl = addFlags r fl.
Proof.
  unfold addFlags. cbn [node prefix suffix flags].
  now rewrite list_ascii_of_string_of_list_ascii, add_chars_idempotent.
Qed.

Lemma N_of_ascii_inj a b : N_of_ascii a = N_of_ascii b -> a = b.
Proof.
  intros H. rewrite <- (ascii_N_embedding a), <- (ascii_N_embedding b).
  now rewrite H.
Qed.

Lemma insert_flag_In c l x : In x (insert_flag c l) <-> x = c \/ In x l.
Proof.
  induction l as [|d r IH]; simpl.
  - intuition.
  - destruct (N.ltb_spec (N_of_ascii c) (N_of_ascii d)).
    + simpl. intuition.
    + destruct (N.eqb_spec (N_of_ascii c) (N_of_ascii d)) as [E|E].
      * apply N_of_ascii_inj in E. subst d. simpl. intuition.
      * simpl. rewrite IH. intuition.
Qed.

Lemma insert_flag_sorted c l :
  StronglySorted before l -> StronglySorted before (insert_flag c l).
Proof.
  induction 1 as [|d r Hr IH Hd]; simpl.
  - repeat constructor.
  - destruct (N.ltb_spec (N_of_ascii c) (N_of_ascii d)) as [Hlt|Hge].
    + constructor; [now constructor|].
      constructor; [exact Hlt|].
      apply Forall_forall. intros x Hx.
      rewrite Forall_forall in Hd. specialize (Hd x Hx).
      unfold before in *. lia.
    + destruct (N.eqb_spec (N_of_ascii c) (N_of_ascii d)) as [E|E].
      * now constructor.
      * constructor; [assumption|].
        apply Forall_forall. intros x Hx.
        apply insert_flag_In in Hx as [->|Hx].
        -- unfold before. lia.
        -- rewrite Forall_forall in Hd. now apply Hd.
Qed.

Lemma canonical_In l x : In x (canonical l) <-> In x l.
Proof.
  induction l as [|c l IH]; simpl; [reflexivity|].
  rewrite insert_flag_In, IH. intuition.
Qed.

Lemma canonical_sorted l : StronglySorted before (canonical l).
Proof.
  induction l as [|c l IH]; simpl; [constructor|].
  now apply insert_flag_sorted.
Qed.

Lemma sorted_same_members l1 : forall l2,
  StronglySorted before l1 -> StronglySorted before l2 ->
  (forall x, In x l1 <-> In x l2) -> l1 = l2.
Proof.
  induction l1 as [|a r1 IH]; intros l2 H1 H2 Hm.
  - destruct l2 as [|b r2]; [reflexivity|].
    exfalso. apply (Hm b). now left.
  - destruct l2 as [|b r2]; [exfalso; apply (Hm a); now left|].
    apply StronglySorted_inv in H1 as [Hs1 Hf1].
    apply StronglySorted_inv in H2 as [Hs2 Hf2].
    rewrite Forall_forall in Hf1, Hf2.
    assert (a = b) as <-.
    { destruct (proj1 (Hm a) (or_introl eq_refl)) as [Hab|Hab];
        [now symmetry|].
      destruct (proj2 (Hm b) (or_introl eq_refl)) as [Hba|Hba];
        [assumption|].
      specialize (Hf1 b Hba). specialize (Hf2 a Hab).
      unfold before in *. lia. }
    f_equal. apply IH; [assumption | assumption |].
    intros x. split; intros Hx.
    + destruct (proj1 (Hm x) (or_intror Hx)) as [<-|]; [|assumption].
      specialize (Hf1 a Hx). unfold before in Hf1. lia.
    + destruct (proj2 (Hm x) (or_intror Hx)) as [<-|]; [|assumption].
      specialize (Hf2 a Hx). unfold before in Hf2. lia.
Qed.

Lemma renderFlags_same_members f1 f2 :
  (forall c, In c (list_ascii_of_string f1) <-> In c (list_ascii_of_string f2))
  -> renderFlags f1 = renderFlags f2.
Proof.
  intros Hm. unfold renderFlags. f_equal.
  apply sorted_same_members; try apply canonical_sorted.
  intros x. now rewrite !canonical_In.
Qed.

End Flags.

Section FlagInvariant.
Import RegexAst SolidExpression StringifyAst.

Lemma flagsOk_grow st ext :
  flagsOk st -> Forall (fun o => forall r, o = Some r -> rootOk r) ext ->
  flagsOk (grow st ext).
Proof.
  intros Hst Hext l r Hl.
  destruct (Nat.lt_ge_cases l (List.length (heap st))) as [Hlt|Hge].
  - rewrite lookup_grow_lt in Hl by assumption. eapply Hst; eauto.
  - unfold lookup, grow in Hl. simpl in Hl.
    rewrite nth_error_app2 in Hl by assumption.
    destruct (nth_error ext (l - List.length (heap st))) as [[x|]|] eqn:E;
      try discriminate.
    inversion Hl; subst x. apply nth_error_In in E.
    rewrite Forall_forall in Hext. now apply (Hext _ E).
Qed.

Lemma flagsOk_grow1 st r : flagsOk st -> rootOk r -> flagsOk (grow st [Some r]).
Proof.
  intros Hst Hr. apply flagsOk_grow; [assumption|].
  constructor; [|constructor]. now intros r0 [= <-].
Qed.

Lemma flagsOk_grow_uninit st : flagsOk st -> flagsOk (grow st [None]).
Proof.
  intros Hst. apply flagsOk_grow; [assumption|].
  constructor; [|constructor]. discriminate.
Qed.

Lemma keeps_ret {A} (a : A) (Q : A -> Prop) : Q a -> keeps (ret a) Q.
Proof. intros Ha st Hst. split; [assumption|]. now intros ? [= <-]. Qed.

Lemma keeps_lift {A} (r : result A) (Q : A -> Prop) :
  (forall a, r = Ok a -> Q a) -> keeps (lift r) Q.
Proof. intros H st Hst. split; [assumption|]. intros a. apply H. Qed.

Lemma keeps_bind {A B} (m : M A) (k : A -> M B) (Q : A -> Prop)
      (Q' : B -> Prop) :
  keeps m Q -> (forall a, Q a -> keeps (k a) Q') -> keeps (bind m k) Q'.
Proof.
  intros Hm Hk st Hst. unfold bind. destruct (Hm st Hst) as [H1 H2].
  destruct (m st) as [[a|e] st1]; simpl in *.
  - apply (Hk a (H2 a eq_refl) st1 H1).
  - split; [assumption | discriminate].
Qed.

Lemma keeps_rootNode l : keeps (rootNode l) rootOk.
Proof.
  intros st Hst. unfold rootNode.
  destruct (lookup st l) as [r|] eqn:E; simpl.
  - split; [assumption|]. intros a [= <-]. eapply Hst; eauto.
  - split; [assumption | discriminate].
Qed.

Lemma keeps_new p : rootOk (createRoot p) -> keeps (new_ p) (fun _ => True).
Proof.
  intros Hp st Hst. split; [|trivial]. now apply flagsOk_grow1.
Qed.

Lemma rootOk_default : rootOk (mkRoot Empty "" "" default_flags).
Proof. unfold rootOk. simpl. repeat constructor; simpl; intuition congruence. Qed.

Lemma rootOk_createRoot p :
  match p_flags p with
  | Some fl => NoDup (list_ascii_of_string fl)
  | None => True
  end -> rootOk (createRoot p).
Proof.
  unfold rootOk, createRoot. cbn [flags].
  destruct (p_flags p); [trivial|]. intros _. apply rootOk_default.
Qed.

Lemma keeps_of v : valueOk v -> keeps (of_ v) (fun _ => True).
Proof.
  intros Hv. destruct v; cbn [of_];
    try (apply keeps_new, rootOk_createRoot; cbn; auto).
  now apply keeps_ret.
Qed.

Lemma rootOk_from r : rootOk r -> rootOk (createRoot (asParams r)).
Proof. now rewrite createRoot_asParams. Qed.

Lemma rootOk_addFlags r fl : rootOk r -> rootOk (addFlags r fl).
Proof.
  unfold rootOk, addFlags. cbn [flags].
  rewrite list_ascii_of_string_of_list_ascii. apply NoDup_add_chars.
Qed.

Lemma rootOk_removeFlags r fl : rootOk r -> rootOk (removeFlags r fl).
Proof.
  unfold rootOk, removeFlags. cbn [flags].
  rewrite list_ascii_of_string_of_list_ascii. apply NoDup_remove_chars.
Qed.

Lemma keeps_setPrefix this p : keeps (setPrefix_ this p) (fun _ => True).
Proof.
  intros st Hst. rewrite setPrefix_run. split; [|trivial].
  destruct (lookup st this) as [r|] eqn:E; simpl.
  - apply flagsOk_grow1; [assumption|]. apply (Hst _ _ E).
  - now apply flagsOk_grow_uninit.
Qed.

Lemma keeps_setSuffix this s : keeps (setSuffix_ this s) (fun _ => True).
Proof.
  intros st Hst. rewrite setSuffix_run. split; [|trivial].
  destruct (lookup st this) as [r|] eqn:E; simpl.
  - apply flagsOk_grow1; [assumption|]. apply (Hst _ _ E).
  - now apply flagsOk_grow_uninit.
Qed.

Lemma keeps_mapM {A B} (f : A -> M B) (Q : B -> Prop) (l : list A) :
  (forall a, In a l -> keeps (f a) Q) -> keeps (mapM f l) (Forall Q).
Proof.
  induction l as [|a l IH]; intros Hf; cbn [mapM].
  - now apply keeps_ret.
  - eapply keeps_bind; [apply Hf; now left|]. intros b Hb.
    eapply keeps_bind; [apply IH; intros; apply Hf; now right|].
    intros bs Hbs. apply keeps_ret. now constructor.
Qed.

Ltac invariant :=
  repeat first
    [ apply keeps_setPrefix
    | apply keeps_setSuffix
    | eapply keeps_bind; [apply keeps_rootNode | intros ? ?]
    | eapply keeps_bind; [apply keeps_of; assumption | intros ? _]
    | eapply keeps_bind; [apply keeps_lift; intros ? _; exact I | intros ? _]
    | apply keeps_new, rootOk_from
    | apply rootOk_addFlags
    | apply rootOk_removeFlags
    | assumption
    | match goal with
      | |- keeps (if ?b then _ else _) _ => destruct b
      end ].

Lemma apply_keeps o this : opOk o -> keeps (apply o this) (fun _ => True).
Proof.
  intros Ho.
  destruct o; cbn [apply opOk] in *;
    unfold assertStartOfLine, assertEndOfLine, br, lineBreak, tab_, word_,
      digit_, whitespace_, any_, withAnyCase, stopAtFirst, searchOneLine;
    unfold then_, maybe, or_, anything, anythingBut, something, somethingBut,
      anyOf, someOf, oneOf, assertNotFollowedBy, assertFollowedBy,
      charOfRanges, charNotOfRanges, addFlag, removeFlag, repeat,
      repeatExactly, oneOrMore, zeroOrMore, capture, from;
    invariant.
  all: try exact I.
Qed.

Lemma flagsOk_same_heap st st' :
  heap st' = heap st -> flagsOk st -> flagsOk st'.
Proof. intros Hh Hst l r. unfold lookup. rewrite Hh. apply Hst. Qed.

Lemma Sx_keeps v : valueOk v -> keeps (Sx v) (fun _ => True).
Proof.
  intros Hv. unfold Sx.
  destruct (negb (nullish v) && accepted v); [now apply keeps_of|].
  intros st Hst. split; [|trivial].
  unfold bind, warnArgType, ret.
  destruct (negb (nullish v) && negb (production st)); [|assumption].
  destruct (warned st); [assumption|].
  now apply (flagsOk_same_heap st).
Qed.

Lemma keeps_nodeOf l : keeps (nodeOf l) (fun _ => True).
Proof.
  unfold nodeOf. eapply keeps_bind; [apply keeps_rootNode|].
  intros r _. now apply keeps_ret.
Qed.

Lemma static_keeps (mk : list Node -> Node) xs :
  Forall valueOk xs ->
  keeps (verbals <- mapM of_ xs ;;
         nodes <- mapM nodeOf verbals ;;
         from {| p_node := Some (mk nodes); p_prefix := None;
                 p_suffix := None; p_flags := None; p_source := None;
                 p_sanitize := None |}) (fun _ => True).
Proof.
  intros Hxs. rewrite Forall_forall in Hxs.
  eapply keeps_bind.
  { apply keeps_mapM with (Q := fun _ => True).
    intros a Ha. apply keeps_of. now apply Hxs. }
  intros verbals _. eapply keeps_bind.
  { apply keeps_mapM with (Q := fun _ => True).
    intros a _. apply keeps_nodeOf. }
  intros nodes _. apply keeps_new, rootOk_createRoot. exact I.
Qed.

Lemma flagsOk_initial prod : flagsOk (initial prod).
Proof.
  intros l r H. unfold lookup, initial in H. cbn [heap] in H.
  do 7 (destruct l as [|l]; [inversion H; apply rootOk_default|]).
  destruct l; discriminate.
Qed.

(** C7.  The flags of every root in the store have no repeated character:
    this holds when the module is loaded and is kept by every fluent
    operation and every entry point.  A root made without flags has the
    baseline ["gi"].  Adding flags twice is adding them once, on roots and
    through [addFlag].  Flag strings with the same members are rendered
    as the same string. *)
Theorem C7_flags_form_a_set (st : state) :
  flagsOk st ->
  (forall prod, flagsOk (initial prod))
  /\ (forall o this, opOk o -> flagsOk (snd (apply o this st)))
  /\ (forall v, valueOk v ->
        flagsOk (snd (Sx v st)) /\ flagsOk (snd (of_ v st)))
  /\ (forall xs, Forall valueOk xs ->
        flagsOk (snd (static_or xs st)) /\ flagsOk (snd (static_seq xs st)))
  /\ (forall p, p_flags p = None -> flags (createRoot p) = "gi")
  /\ (forall v, (forall s fl, v <> VRegExp s fl) ->
        flags (createRoot (preSanitize v)) = "gi")
  /\ (forall r fl, addFlags (addFlags r fl) fl = addFlags r fl)
  /\ (forall this r, lookup st this = Some r ->
        exists l1 st1 l2 st2 r1 r2,
          addFlag this (Some "i") st = (Ok l1, st1)
          /\ addFlag l1 (Some "i") st1 = (Ok l2, st2)
          /\ lookup st2 l1 = Some r1 /\ lookup st2 l2 = Some r2
          /\ flags r2 = flags r1 /\ r2 = r1)
  /\ (forall f1 f2,
        (forall c, In c (list_ascii_of_string f1)
                   <-> In c (list_ascii_of_string f2)) ->
        renderFlags f1 = renderFlags f2).
Proof.
  intros Hst.
  split; [apply flagsOk_initial|].
  split; [intros o this Ho; apply (apply_keeps o this Ho st Hst)|].
  split.
  { intros v Hv. split;
      [apply (Sx_keeps v Hv st Hst) | apply (keeps_of v Hv st Hst)]. }
  split.
  { intros xs Hxs. split;
      [apply (static_keeps alt xs Hxs st Hst)
      | apply (static_keeps seq xs Hxs st Hst)]. }
  split.
  { intros p Hp. unfold createRoot. cbn [flags]. now rewrite Hp. }
  split.
  { intros v Hv. destruct v as [| | | | |s fl| |]; try reflexivity.
    now destruct (Hv s fl). }
  split; [apply addFlags_idempotent|].
  split; [|apply renderFlags_same_members].
  - intros this r Hr.
    exists (List.length (heap st)), (grow st [Some (addFlags r "i")]).
    exists (S (List.length (heap st))).
    exists (grow st [Some (addFlags r "i"); Some (addFlags r "i")]).
    exists (addFlags r "i"), (addFlags r "i").
    assert (H1 : addFlag this (Some "i") st
                 = (Ok (List.length (heap st)),
                    grow st [Some (addFlags r "i")])).
    { unfold addFlag. now rewrite (node_method_run _ this st r Hr). }
    assert (H2 : addFlag (List.length (heap st)) (Some "i")
                   (grow st [Some (addFlags r "i")])
                 = (Ok (S (List.length (heap st))),
                    grow st [Some (addFlags r "i"); Some (addFlags r "i")])).
    { unfold addFlag.
      rewrite (node_method_run _ _ _ _ (lookup_grow_new st (addFlags r "i"))).
      cbn [dflt]. rewrite addFlags_idempotent, grow_grow.
      cbn [heap grow]. rewrite length_app. cbn [List.length].
      now rewrite Nat.add_1_r. }
    repeat split; try assumption.
    + pose proof (lookup_grow_at st [] (addFlags r "i")
                    [Some (addFlags r "i")]) as H.
      now rewrite app_nil_r in H.
    + pose proof (lookup_grow_at st [Some (addFlags r "i")]
                    (addFlags r "i") []) as H.
      rewrite length_app in H. cbn [List.length] in H.
      now rewrite Nat.add_1_r in H.
Qed.

Lemma C7_flags_form_a_set_witness :
  flagsOk (snd (apply (AddFlag (Some "i")) SolidExpression.empty
                      (initial false)))
  /\ renderFlags "ig" = renderFlags "gi".
Proof.
  destruct (C7_flags_form_a_set (initial false) (flagsOk_initial false))
    as (_ & Hop & _ & _ & _ & _ & _ & _ & Hsame).
  split.
  - exact (Hop (AddFlag (Some "i")) SolidExpression.empty I).
  - apply Hsame. intros c. simpl. intuition.
Defined.

End FlagInvariant.

(* ===================================================================== *)
(** ** More on [makeRanges] *)
(* ===================================================================== *)

Section RangeArguments.
Import RegexAst SolidExpression.

Lemma rangePairs_bounds_aux l :
  (Nat.even (List.length l) = true -> pairBounds (rangePairs l) = l)
  /\ (forall a, Nat.even (List.length (a :: l)) = true ->
                pairBounds (rangePairs (a :: l)) = a :: l).
Proof.
  induction l as [|b l [IH1 IH2]].
  - split; [reflexivity|]. intros a H. discriminate.
  - split.
    + apply IH2.
    + intros a H. change (Nat.even (List.length l) = true) in H.
      cbn [rangePairs pairBounds flat_map fst snd app].
      f_equal. f_equal. now apply IH1.
Qed.

Lemma rangePairs_length_aux l :
  (Nat.even (List.length l) = true ->
   (2 * List.length (rangePairs l) = List.length l)%nat)
  /\ (forall a, Nat.even (List.length (a :: l)) = true ->
       (2 * List.length (rangePairs (a :: l)) = List.length (a :: l))%nat).
Proof.
  induction l as [|b l [IH1 IH2]].
  - split; [reflexivity|]. intros a H. discriminate.
  - split.
    + apply IH2.
    + intros a H. change (Nat.even (List.length l) = true) in H.
      specialize (IH1 H). cbn [rangePairs List.length]. lia.
Qed.

(** X1.  [makeRanges] succeeds exactly when the flattened bounds are even
    in number; the pairs it returns are then the bounds taken two by two:
    laid end to end they are the bounds again, in order, and there are half
    as many of them.  When it fails, it is with the assertion error. *)
Theorem X1_makeRanges_pairs_are_the_bounds (rs : list jsarr) :
  ((exists ps, makeRanges rs = Ok ps)
   <-> Nat.even (List.length (flat_map flat rs)) = true)
  /\ (forall ps, makeRanges rs = Ok ps ->
        pairBounds ps = flat_map flat rs
        /\ (2 * List.length ps = List.length (flat_map flat rs))%nat)
  /\ (forall e, makeRanges rs = Err e -> e = oddCountError).
Proof.
  unfold makeRanges.
  destruct (Nat.even (List.length (flat_map flat rs))) eqn:E.
  - split; [split; eauto|]. split.
    + intros ps [= <-]. split.
      * now apply rangePairs_bounds_aux.
      * now apply rangePairs_length_aux.
    + discriminate.
  - split; [split; [intros [ps H]; discriminate | discriminate]|]. split.
    + discriminate.
    + now intros e [= <-].
Qed.

Lemma X1_makeRanges_pairs_are_the_bounds_witness :
  makeRanges [Arr [Elem "a"; Elem "z"]; Elem "0"; Arr [Arr [Elem "9"]]]
  = Ok [("a", "z"); ("0", "9")]
  /\ pairBounds [("a", "z"); ("0", "9")] = ["a"; "z"; "0"; "9"].
Proof.
  split; [reflexivity|].
  apply (X1_makeRanges_pairs_are_the_bounds
           [Arr [Elem "a"; Elem "z"]; Elem "0"; Arr [Arr [Elem "9"]]]).
  reflexivity.
Defined.

Lemma flat_map_flat_Elem l : flat_map flat (map Elem l) = l.
Proof. induction l as [|a l IH]; simpl; congruence. Qed.

Lemma makeRanges_flat rs1 rs2 :
  flat_map flat rs1 = flat_map flat rs2 -> makeRanges rs1 = makeRanges rs2.
Proof. unfold makeRanges. now intros ->. Qed.

(** X2.  Only the flattened sequence of bounds matters to [charOfRanges]
    and [charNotOfRanges]: passing the bounds one by one, as pairs, as one
    array of everything or nested deeper gives the same result, in the same
    store. *)
Theorem X2_ranges_arguments_are_flattened (this : loc) (st : state)
        (rs1 rs2 : list jsarr) :
  flat_map flat rs1 = flat_map flat rs2 ->
  charOfRanges this rs1 st = charOfRanges this rs2 st
  /\ charNotOfRanges this rs1 st = charNotOfRanges this rs2 st
  /\ charOfRanges this [Arr rs1] st = charOfRanges this rs1 st
  /\ charOfRanges this (map Elem (flat_map flat rs1)) st
     = charOfRanges this rs1 st.
Proof.
  intros H. unfold charOfRanges, charNotOfRanges.
  rewrite (makeRanges_flat rs1 rs2 H).
  assert (H1 : makeRanges [Arr rs1] = makeRanges rs2).
  { apply makeRanges_flat. simpl. now rewrite app_nil_r. }
  assert (H2 : makeRanges (map Elem (flat_map flat rs1)) = makeRanges rs2).
  { apply makeRanges_flat. now rewrite flat_map_flat_Elem. }
  rewrite H1, H2. repeat split.
Qed.

Lemma X2_ranges_arguments_are_flattened_witness :
  charOfRanges SolidExpression.empty
               [Arr [Elem "a"; Elem "z"]; Arr [Elem "0"; Elem "9"]]
               (initial false)
  = charOfRanges SolidExpression.empty
                 [Elem "a"; Elem "z"; Elem "0"; Elem "9"] (initial false).
Proof.
  apply (X2_ranges_arguments_are_flattened SolidExpression.empty
           (initial false)
           [Arr [Elem "a"; Elem "z"]; Arr [Elem "0"; Elem "9"]]
           [Elem "a"; Elem "z"; Elem "0"; Elem "9"]).
  reflexivity.
Defined.

End RangeArguments.

(* ===================================================================== *)
(** ** More on the coercion of repetition bounds *)
(* ===================================================================== *)

Section Coercion.
Import RegexAst SolidExpression.

Lemma wrap32_periodic z k : wrap32 (z + k * 2 ^ 32) = wrap32 z.
Proof. unfold wrap32. now rewrite Z_mod_plus_full. Qed.

Lemma wrap32_int32 z : - 2 ^ 31 <= z < 2 ^ 31 -> wrap32 z = z.
Proof.
  intros Hz. destruct (Z.lt_ge_cases z 0) as [Hneg|Hpos].
  - rewrite <- (wrap32_periodic z 1). unfold wrap32.
    rewrite Z.mod_small by lia.
    destruct (Z.ltb_spec (z + 1 * 2 ^ 32) (2 ^ 31)); lia.
  - apply wrap32_small. lia.
Qed.

Lemma ToInt32_int z : ToInt32 (Finite (inject_Z z)) = wrap32 z.
Proof. unfold ToInt32. simpl. now rewrite Z.quot_1_r. Qed.

(** X3.  The coercion [x | 0] of [repeat] and [repeatExactly] looks only at
    the integer part of a number (rounding toward zero), is periodic of
    period 2^32, and leaves an integer of the signed 32-bit range as it is,
    negative ones included.  So [repeat(2.7, 4.2)] is [repeat(2, 4)] and
    [repeat(2 + 2^32, ...)] is [repeat(2, ...)]. *)
Theorem X3_bounds_are_truncated_and_wrapped (this : loc) (st : state) :
  (forall q mx,
     repeat this (Some (Finite q)) mx st
     = repeat this (int (Z.quot (Qnum q) (Zpos (Qden q)))) mx st)
  /\ (forall q,
        repeatExactly this (Some (Finite q)) st
        = repeatExactly this (int (Z.quot (Qnum q) (Zpos (Qden q)))) st)
  /\ (forall z k mx,
        repeat this (int (z + k * 2 ^ 32)) mx st = repeat this (int z) mx st)
  /\ (forall z, - 2 ^ 31 <= z < 2 ^ 31 -> coerce (int z) = Some z)
  /\ (forall q, 0 <= Qnum q < Zpos (Qden q) -> coerce (Some (Finite q)) = Some 0)
  /\ (forall q, - Zpos (Qden q) < Qnum q <= 0 ->
        coerce (Some (Finite q)) = Some 0).
Proof.
  assert (Hq : forall q, coerce (Some (Finite q))
                         = coerce (int (Z.quot (Qnum q) (Zpos (Qden q))))).
  { intros q. unfold coerce, int. cbn [option_map].
    now rewrite ToInt32_int. }
  assert (Hk : forall z k, coerce (int (z + k * 2 ^ 32)) = coerce (int z)).
  { intros z k. unfold coerce, int. cbn [option_map].
    now rewrite !ToInt32_int, wrap32_periodic. }
  split; [intros q mx; unfold repeat; now rewrite Hq|].
  split; [intros q; unfold repeatExactly; now rewrite Hq|].
  split; [intros z k mx; unfold repeat; now rewrite Hk|].
  split.
  { intros z Hz. unfold coerce, int. cbn [option_map].
    now rewrite ToInt32_int, wrap32_int32. }
  split.
  - intros q Hr. rewrite Hq. rewrite Z.quot_small by lia. reflexivity.
  - intros q Hr. rewrite Hq.
    assert (Z.quot (Qnum q) (Zpos (Qden q)) = 0) as ->; [|reflexivity].
    rewrite <- (Z.opp_involutive (Qnum q)), Z.quot_opp_l by lia.
    rewrite Z.quot_small by lia. reflexivity.
Qed.

Lemma X3_bounds_are_truncated_and_wrapped_witness :
  coerce (int (-3)) = Some (-3)
  /\ coerce (Some (Finite (27 # 10))) = coerce (int 2).
Proof.
  destruct (X3_bounds_are_truncated_and_wrapped SolidExpression.empty
              (initial false)) as (_ & _ & _ & Hid & _).
  split.
  - apply (Hid (-3)). lia.
  - reflexivity.
Defined.

End Coercion.


(* ===================================================================== *)
(** ** More on the sanitizer *)
(* ===================================================================== *)

Section Anchors.
Import RegexAst SolidExpression.

Lemma endsWith_snoc c t : endsWith c (t ++ str1 c) = true.
Proof.
  induction t as [|a t IH]; simpl.
  - apply Ascii.eqb_refl.
  - destruct (t ++ str1 c) eqn:E; [|exact IH].
    destruct t; discriminate.
Qed.

Lemma dropTrailing_snoc c t : dropTrailing c (t ++ str1 c) = t.
Proof.
  induction t as [|a t IH]; simpl.
  - now rewrite Ascii.eqb_refl.
  - destruct (t ++ str1 c) eqn:E; [destruct t; discriminate|].
    now rewrite IH.
Qed.

Lemma dropLeading_app c t u :
  startsWith c u = false ->
  dropLeading c (t ++ u) = dropLeading c t ++ u /\
  startsWith c (t ++ u) = startsWith c t.
Proof.
  intros Hu. destruct t as [|a t]; simpl.
  - destruct u as [|b u]; [now split|]. simpl in Hu. simpl.
    rewrite Hu. now split.
  - destruct (Ascii.eqb a c); now split.
Qed.

(** X4.  Whatever comes before it, a final [$] of a native regular
    expression's source is taken as the end anchor and removed from the
    source handed on, and a first [^] as the start anchor.  The character
    before the [$] is not looked at: the source [a\$], which matches a
    literal dollar sign, is split into the source [a\] and the suffix
    [$]. *)
Theorem X4_final_dollar_is_always_an_anchor (t fl : string) :
  preSanitize (VRegExp (t ++ "$") fl)
  = mkParams (Some (if startsWith "^" t then "^" else "")) (Some "$")
             (Some fl) (Some (dropLeading "^" t)) None (Some false)
  /\ preSanitize (VRegExp (String "^" t) fl)
     = mkParams (Some "^") (Some (if endsWith "$" t then "$" else ""))
                (Some fl) (Some (dropTrailing "$" t)) None (Some false).
Proof.
  split.
  - assert (Hne : String.eqb (t ++ "$") "(?:)" = false).
    { apply String.eqb_neq. intros H.
      pose proof (endsWith_snoc "$" t) as He.
      change (str1 "$") with "$" in He. rewrite H in He. discriminate. }
    unfold preSanitize. rewrite Hne.
    destruct (dropLeading_app "^" t "$" eq_refl) as [Hd Hs].
    rewrite Hd, Hs.
    pose proof (endsWith_snoc "$" t) as He.
    pose proof (dropTrailing_snoc "$" (dropLeading "^" t)) as Ht.
    change (str1 "$") with "$" in He, Ht. now rewrite He, Ht.
  - assert (Hne : String.eqb (String "^" t) "(?:)" = false) by reflexivity.
    unfold preSanitize. rewrite Hne.
    rewrite endsWith_cons by discriminate. reflexivity.
Qed.

End Anchors.

(* ===================================================================== *)
(** ** More on the entry points and the warning *)
(* ===================================================================== *)

Section Warning.
Import RegexAst SolidExpression.

Lemma extends_fields st st' :
  extends st st' ->
  warned st' = warned st /\ console st' = console st
  /\ production st' = production st.
Proof. intros [ext ->]. now simpl. Qed.

Lemma allocates_mapM {A B} (f : A -> M B) (l : list A) :
  (forall a, allocates (f a)) -> allocates (mapM f l).
Proof.
  intros Hf. induction l as [|a l IH]; cbn [mapM].
  - apply allocates_ret.
  - apply allocates_bind; [apply Hf|]. intros b.
    apply allocates_bind; [apply IH|]. intros bs. apply allocates_ret.
Qed.

Lemma allocates_nodeOf l : allocates (nodeOf l).
Proof.
  unfold nodeOf. apply allocates_bind; [apply allocates_rootNode|].
  intros r. apply allocates_ret.
Qed.

Lemma allocates_static_or xs : allocates (static_or xs).
Proof.
  unfold static_or. apply allocates_bind; [apply allocates_mapM, allocates_of|].
  intros verbals.
  apply allocates_bind; [apply allocates_mapM, allocates_nodeOf|].
  intros nodes. apply allocates_from.
Qed.

Lemma allocates_static_seq xs : allocates (static_seq xs).
Proof.
  unfold static_seq. apply allocates_bind; [apply allocates_mapM, allocates_of|].
  intros verbals.
  apply allocates_bind; [apply allocates_mapM, allocates_nodeOf|].
  intros nodes. apply allocates_from.
Qed.

(** What one call of [Sx] does, on any value. *)
Lemma Sx_run v st :
  exists l st',
    Sx v st = (Ok l, st')
    /\ production st' = production st
    /\ (exists ext, heap st' = (heap st ++ ext)%list)
    /\ ((warned st' = warned st /\ console st' = console st)
        \/ (warned st = false /\ warned st' = true
            /\ console st' = (console st ++ [warningText])%list
            /\ accepted v = false /\ nullish v = false
            /\ production st = false)).
Proof.
  destruct (accepted v) eqn:Ha.
  - assert (Hn : nullish v = false) by (destruct v; try discriminate;
                                        reflexivity).
    unfold Sx. rewrite Hn, Ha. cbn [negb andb].
    pose proof (allocates_of v st) as Hext.
    assert (Hok : exists l, fst (of_ v st) = Ok l)
      by (destruct v; simpl; eauto).
    destruct Hok as [l Hl]. destruct (of_ v st) as [res st'] eqn:E.
    simpl in Hl, Hext. subst res. exists l, st'.
    destruct (extends_fields _ _ Hext) as (Hw & Hc & Hp).
    destruct Hext as [ext ->].
    repeat split; auto. now exists ext.
  - rewrite (Sx_unsupported_run v st Ha).
    destruct (nullish v) eqn:Hn, (production st) eqn:Hp, (warned st) eqn:Hw;
      cbn [negb andb]; do 2 eexists; (split; [reflexivity|]);
      cbn [production heap warned console];
      (split; [auto|]); (split; [exists []; now rewrite app_nil_r|]);
      auto 10.
Qed.

(** X5.  [Sx] never throws, whatever it is given, and over any run of calls
    it writes the warning at most once: the console afterwards is the
    console before, or the console before with the one warning appended,
    and the latter only if the latch was open.  A string, a number, a
    regular expression or an expression never leads to a warning. *)
Theorem X5_Sx_is_total_and_warns_at_most_once (vs : list value)
        (st : state) :
  exists ls st',
    mapM Sx vs st = (Ok ls, st')
    /\ List.length ls = List.length vs
    /\ production st' = production st
    /\ (console st' = console st
        \/ (warned st = false /\ warned st' = true
            /\ console st' = (console st ++ [warningText])%list))
    /\ (warned st = true -> warned st' = true /\ console st' = console st)
    /\ (Forall (fun v => accepted v = true) vs ->
        warned st' = warned st /\ console st' = console st).
Proof.
  revert st. induction vs as [|v vs IH]; intros st.
  - exists [], st. cbn [mapM ret]. repeat split; auto.
  - destruct (Sx_run v st) as (l & st1 & Hv & Hp1 & _ & Hcase).
    destruct (IH st1) as (ls & st2 & Hvs & Hlen & Hp2 & Hc2 & Hw2 & Ha2).
    exists (l :: ls), st2. cbn [mapM]. unfold bind at 1. rewrite Hv.
    unfold bind at 1. rewrite Hvs. unfold ret. cbn [List.length].
    split; [reflexivity|]. split; [now rewrite Hlen|].
    split; [congruence|].
    destruct Hcase as [[Hw1 Hc1] | (Hw0 & Hw1 & Hc1 & Hacc & _)].
    + split.
      { destruct Hc2 as [Hc2 | (Hf & Ht & Hc2)].
        - left. congruence.
        - right. repeat split; congruence. }
      split.
      { intros Hw. rewrite <- Hw1 in Hw. destruct (Hw2 Hw). split; congruence. }
      intros Hall. inversion Hall; subst.
      destruct (Ha2 H2). split; congruence.
    + destruct (Hw2 Hw1) as [Hw3 Hc3]. split.
      { right. repeat split; congruence. }
      split; [congruence|].
      intros Hall. inversion Hall; subst. congruence.
Qed.

(** X6.  The fluent operations and [compile] are silent: whether they return
    or throw, they write nothing to the console and leave the warning latch
    as it was; [compile] changes nothing at all. *)
Theorem X6_operations_never_warn (o : op) (this : loc) (st : state) :
  warned (snd (apply o this st)) = warned st
  /\ console (snd (apply o this st)) = console st
  /\ production (snd (apply o this st)) = production st
  /\ snd (compile this st) = st.
Proof.
  destruct (extends_fields _ _ (apply_allocates o this st)) as (H1 & H2 & H3).
  repeat split; auto.
  unfold compile, bind, rootNode, lift.
  destruct (lookup st this); reflexivity.
Qed.

(** X7.  No entry point changes an expression that exists: after [Sx],
    [of], [Sx.or] or [Sx.seq], on any arguments and whether they return or
    throw, every live instance has the root it had. *)
Theorem X7_entry_points_never_change_existing_expressions
        (st : state) (e : loc) (r : RootNode) :
  lookup st e = Some r ->
  (forall v, lookup (snd (Sx v st)) e = Some r
             /\ lookup (snd (of_ v st)) e = Some r)
  /\ (forall xs, lookup (snd (static_or xs st)) e = Some r
                 /\ lookup (snd (static_seq xs st)) e = Some r).
Proof.
  intros He. split.
  - intros v. split.
    + destruct (Sx_run v st) as (l & st' & Hv & _ & [ext Hext] & _).
      rewrite Hv. cbn [snd]. unfold lookup in *. rewrite Hext.
      destruct (nth_error (heap st) e) as [o|] eqn:E; [|discriminate].
      rewrite nth_error_app1; [now rewrite E|].
      apply nth_error_Some. congruence.
    + apply (extends_lookup _ _ _ _ (allocates_of v st) He).
  - intros xs. split.
    + apply (extends_lookup _ _ _ _ (allocates_static_or xs st) He).
    + apply (extends_lookup _ _ _ _ (allocates_static_seq xs st) He).
Qed.

Lemma X7_entry_points_never_change_existing_expressions_witness :
  lookup (snd (static_or [VString "a"; VRegExp "^b$" "m";
                          VExpr SolidExpression.digit] (initial false)))
         SolidExpression.digit
  = Some (mkRoot (BuiltIn Digit) "" "" "gi").
Proof.
  destruct (X7_entry_points_never_change_existing_expressions
              (initial false) SolidExpression.digit
              (mkRoot (BuiltIn Digit) "" "" "gi") eq_refl) as [_ H].
  apply (H [VString "a"; VRegExp "^b$" "m"; VExpr SolidExpression.digit]).
Defined.

End Warning.

Lemma X5_Sx_is_total_and_warns_at_most_once_witness :
  exists ls st',
    mapM Sx [VString "a"; VBoolean true; VNull; VOther "array"]
         (initial false) = (Ok ls, st')
    /\ List.length ls = 4%nat.
Proof.
  destruct (X5_Sx_is_total_and_warns_at_most_once
              [VString "a"; VBoolean true; VNull; VOther "array"]
              (initial false)) as (ls & st' & H & Hlen & _).
  exists ls, st'. split; assumption.
Defined.

(* ===================================================================== *)
(** ** Chains of operations *)
(* ===================================================================== *)

Section Chains.
Import RegexAst SolidExpression.

Lemma allocates_chain os : forall this, allocates (chain os this).
Proof.
  induction os as [|o os IH]; intros this; cbn [chain].
  - apply allocates_ret.
  - apply allocates_bind; [apply apply_allocates | intros x; apply IH].
Qed.

Lemma chain_inv os : forall this st l' st' r,
  chain os this st = (Ok l', st') -> lookup st this = Some r ->
  exists r',
    lookup st' l' = Some r'
    /\ prefix r' = fold_left (fun s o => prefix_after o s) os (prefix r)
    /\ suffix r' = fold_left (fun s o => suffix_after o s) os (suffix r)
    /\ flags r' = fold_left (fun s o => flags_after o s) os (flags r).
Proof.
  induction os as [|o os IH]; intros this st l' st' r H Hr.
  - inversion H; subst. exists r. now repeat split.
  - cbn [chain] in H. unfold bind in H.
    destruct (apply o this st) as [[x|e] st1] eqn:E; [|discriminate].
    destruct (apply_inv _ _ _ _ _ E)
      as (r0 & r1 & Hr0 & (_ & _ & Hx) & Hp & Hs & Hf).
    assert (r0 = r) by congruence. subst r0.
    destruct (IH x st1 l' st' r1 H Hx) as (r' & Hl & Hp' & Hs' & Hf').
    exists r'. cbn [fold_left]. rewrite <- Hp, <- Hs, <- Hf. auto.
Qed.

Lemma fold_prefix_stable os : forall s,
  forallb (fun o => negb (setsPrefix o)) os = true ->
  fold_left (fun s o => prefix_after o s) os s = s.
Proof.
  induction os as [|o os IH]; intros s H; [reflexivity|].
  cbn [forallb] in H. apply andb_true_iff in H as [Ho Hos].
  cbn [fold_left]. rewrite IH by assumption.
  destruct o; try reflexivity. discriminate.
Qed.

Lemma fold_flags_stable os : forall s,
  forallb (fun o => negb (setsFlags o)) os = true ->
  fold_left (fun s o => flags_after o s) os s = s.
Proof.
  induction os as [|o os IH]; intros s H; [reflexivity|].
  cbn [forallb] in H. apply andb_true_iff in H as [Ho Hos].
  cbn [fold_left]. rewrite IH by assumption.
  destruct o; try reflexivity; discriminate.
Qed.

(** X8.  Along a chain of calls the start anchor and the flags travel with
    the expression: the result of a chain that does not call
    [assertStartOfLine] has the receiver's prefix, and the result of a chain
    that calls none of [addFlag], [removeFlag], [withAnyCase], [stopAtFirst],
    [searchOneLine] has the receiver's flags.  The receiver itself is as it
    was once the chain has run. *)
Theorem X8_prefix_and_flags_travel_along_a_chain
        (os : list op) (this : loc) (st : state) (r : RootNode)
        (l' : loc) (st' : state) :
  lookup st this = Some r ->
  chain os this st = (Ok l', st') ->
  lookup st' this = Some r
  /\ exists r',
       lookup st' l' = Some r'
       /\ (forallb (fun o => negb (setsPrefix o)) os = true ->
           prefix r' = prefix r)
       /\ (forallb (fun o => negb (setsFlags o)) os = true ->
           flags r' = flags r).
Proof.
  intros Hr H. split.
  - pose proof (allocates_chain os this st) as Hext. rewrite H in Hext.
    apply (extends_lookup _ _ _ _ Hext Hr).
  - destruct (chain_inv os this st l' st' r H Hr) as (r' & Hl & Hp & _ & Hf).
    exists r'. split; [assumption|]. split.
    + intros Hs. now rewrite Hp, fold_prefix_stable.
    + intros Hs. now rewrite Hf, fold_flags_stable.
Qed.

Lemma X8_prefix_and_flags_travel_along_a_chain_witness :
  exists r',
    lookup (snd (chain [Maybe (VExpr SolidExpression.whitespace);
                        Then (VString "hello"); Repeat (int 1) (int 4)] 7%nat
                       (snd (Sx (VRegExp "^test_expr$" "m") (initial false)))))
           11%nat = Some r'
    /\ prefix r' = "^" /\ flags r' = "m".
Proof.
  pose (st := snd (Sx (VRegExp "^test_expr$" "m") (initial false))).
  pose (os := [Maybe (VExpr SolidExpression.whitespace);
               Then (VString "hello"); Repeat (int 1) (int 4)]).
  assert (Hrun : chain os 7%nat st = (Ok 11%nat, snd (chain os 7%nat st)))
    by (vm_compute; reflexivity).
  destruct (X8_prefix_and_flags_travel_along_a_chain os 7%nat st
              (mkRoot (Literal "test_expr" false) "^" "$" "m")
              11%nat (snd (chain os 7%nat st)) eq_refl Hrun)
    as (_ & r' & Hl & Hp & Hf).
  exists r'. split; [exact Hl|]. split; [apply Hp | apply Hf]; reflexivity.
Defined.

End Chains.

(* ===================================================================== *)
(** ** What an argument contributes *)
(* ===================================================================== *)

Section Arguments.
Import RegexAst SolidExpression.

Lemma value_method_run (f : RootNode -> RootNode -> RootNode)
      this v st r :
  lookup st this = Some r -> liveValue st v ->
  exists rx pre,
    (r0 <- rootNode this ;; x <- of_ v ;; rx <- rootNode x ;;
     from (asParams (f r0 rx))) st
    = (Ok (List.length (heap st ++ pre)), grow st (pre ++ [Some (f r rx)]))
    /\ node rx = valueNode st v.
Proof.
  intros Hr Hv.
  destruct (value_method_total f this v st r Hr Hv) as (l' & st' & H).
  destruct (value_method_inv f this v st l' st' H)
    as (r0 & rx & pre & Hr0 & -> & -> & Hcase).
  assert (r0 = r) by congruence. subst r0.
  exists rx, pre. split; [assumption|].
  destruct Hcase as [(x & -> & Hx & _) | (Hne & -> & _)].
  - unfold valueNode. now rewrite Hx.
  - destruct v; try reflexivity. now destruct (Hne l).
Qed.

Ltac by_value_method Hr Hv :=
  match goal with
  | |- exists l' st', ?m ?st = _ /\ _ =>
      let rx := fresh "rx" in
      let pre := fresh "pre" in
      let E := fresh "E" in
      let Hn := fresh "Hn" in
      edestruct (value_method_run) as (rx & pre & E & Hn);
      [exact Hr | exact Hv |];
      do 2 eexists; split; [exact E|];
      rewrite lookup_grow_at; unfold getNode; cbn [setNode setSuffix node
        prefix suffix flags]; rewrite Hn; reflexivity
  end.

(** X9.  The value passed to [then], [maybe], [or], [assertFollowedBy] or
    [assertNotFollowedBy] contributes its node and nothing else: its own
    anchors and flags are dropped.  The result has the receiver's prefix and
    flags, the node composed of the receiver's and the argument's, and the
    receiver's suffix ([then] and [maybe]: the empty suffix). *)
Theorem X9_an_argument_contributes_only_its_node
        (this : loc) (v : value) (st : state) (r : RootNode) :
  lookup st this = Some r -> liveValue st v ->
  (exists l' st',
     then_ this v st = (Ok l', st')
     /\ lookup st' l'
        = Some (mkRoot (RegexAst.then_ (node r) (valueNode st v))
                       (prefix r) "" (flags r)))
  /\ (exists l' st',
        maybe this v st = (Ok l', st')
        /\ lookup st' l'
           = Some (mkRoot (RegexAst.maybe (node r) (valueNode st v))
                          (prefix r) "" (flags r)))
  /\ (exists l' st',
        or_ this v st = (Ok l', st')
        /\ lookup st' l'
           = Some (mkRoot (RegexAst.or_ (node r) (valueNode st v))
                          (prefix r) (suffix r) (flags r)))
  /\ (exists l' st',
        assertFollowedBy this v st = (Ok l', st')
        /\ lookup st' l'
           = Some (mkRoot (RegexAst.followedBy (node r) (valueNode st v))
                          (prefix r) (suffix r) (flags r)))
  /\ (exists l' st',
        assertNotFollowedBy this v st = (Ok l', st')
        /\ lookup st' l'
           = Some (mkRoot (RegexAst.notFollowedBy (node r) (valueNode st v))
                          (prefix r) (suffix r) (flags r))).
Proof.
  intros Hr Hv.
  unfold then_, maybe, or_, assertFollowedBy, assertNotFollowedBy.
  repeat split; by_value_method Hr Hv.
Qed.

Lemma X9_an_argument_contributes_only_its_node_witness :
  exists l' st',
    then_ SolidExpression.digit (VRegExp "^b$" "m") (initial false)
    = (Ok l', st')
    /\ lookup st' l'
       = Some (mkRoot (Sequence [BuiltIn Digit; Literal "b" false])
                      "" "" "gi").
Proof.
  destruct (X9_an_argument_contributes_only_its_node
              SolidExpression.digit (VRegExp "^b$" "m") (initial false)
              (mkRoot (BuiltIn Digit) "" "" "gi") eq_refl I) as (H & _).
  exact H.
Defined.

End Arguments.

(* ===================================================================== *)
(** ** The static combinators *)
(* ===================================================================== *)

Section Statics.
Import RegexAst SolidExpression.

Lemma mapM_of_run xs st0 : forall st,
  extends st0 st -> Forall (liveValue st0) xs ->
  exists ls ext,
    mapM of_ xs st = (Ok ls, grow st ext)
    /\ Forall2 (fun v l => exists rx, lookup (grow st ext) l = Some rx
                                      /\ node rx = valueNode st0 v) xs ls.
Proof.
  induction xs as [|v xs IH]; intros st Hext Hlive.
  - exists [], []. rewrite grow_nil. split; [reflexivity | constructor].
  - inversion Hlive as [|? ? Hv Hvs]; subst.
    cbn [mapM]. unfold bind at 1.
    destruct (of_run v st) as [(x & -> & Hx) | (Hne & Hx)]; rewrite Hx.
    + destruct Hv as [rx Hrx].
      destruct (IH st Hext Hvs) as (ls & ext & Hrun & Hall).
      unfold bind. rewrite Hrun. exists (x :: ls), ext.
      split; [reflexivity|]. constructor; [|assumption].
      exists rx. split.
      * apply lookup_grow_old. apply (extends_lookup _ _ _ _ Hext Hrx).
      * unfold valueNode. now rewrite Hrx.
    + set (c := createRoot (preSanitize v)).
      assert (Hext1 : extends st0 (grow st [Some c])).
      { eapply extends_trans; [exact Hext | now eexists]. }
      destruct (IH (grow st [Some c]) Hext1 Hvs) as (ls & ext & Hrun & Hall).
      unfold bind. rewrite Hrun. rewrite grow_grow in *.
      exists (List.length (heap st) :: ls), ([Some c] ++ ext)%list.
      split; [reflexivity|]. constructor; [|assumption].
      exists c. split.
      * pose proof (lookup_grow_at st [] c ext) as H.
        now rewrite app_nil_r in H.
      * destruct v; try reflexivity. now destruct (Hne l).
Qed.

Lemma mapM_nodeOf_run {A} (g : A -> Node) st xs ls :
  Forall2 (fun v l => exists rx, lookup st l = Some rx /\ node rx = g v)
          xs ls ->
  mapM nodeOf ls st = (Ok (map g xs), st).
Proof.
  induction 1 as [|v l xs ls (rx & Hl & Hn) _ IH]; [reflexivity|].
  cbn [mapM map]. unfold bind at 1. unfold nodeOf at 1. unfold bind at 1.
  rewrite (rootNode_live _ _ _ Hl). unfold ret at 1.
  unfold bind. rewrite IH. unfold ret. now rewrite Hn.
Qed.

Lemma static_run (mk : list Node -> Node) xs st :
  Forall (liveValue st) xs ->
  exists l' st',
    (verbals <- mapM of_ xs ;;
     nodes <- mapM nodeOf verbals ;;
     from {| p_node := Some (mk nodes); p_prefix := None;
             p_suffix := None; p_flags := None; p_source := None;
             p_sanitize := None |}) st = (Ok l', st')
    /\ lookup st' l' = Some (mkRoot (mk (map (valueNode st) xs)) "" "" "gi").
Proof.
  intros Hlive.
  destruct (mapM_of_run xs st st (extends_refl st) Hlive)
    as (ls & ext & Hrun & Hall).
  unfold bind at 1. rewrite Hrun. unfold bind.
  rewrite (mapM_nodeOf_run (valueNode st) _ xs ls Hall).
  unfold from, new_. do 2 eexists. split; [reflexivity|].
  apply lookup_grow_new.
Qed.

(** X10.  [Sx.or] and [Sx.seq] succeed on any arguments and build a new
    expression from the nodes of their arguments, in order: the alternation
    (nested alternations flattened one level) or the sequence of them.  The
    anchors and flags of the arguments are all dropped: the result has no
    prefix, no suffix and the baseline flags. *)
Theorem X10_static_combinators_keep_only_the_nodes
        (xs : list value) (st : state) :
  Forall (liveValue st) xs ->
  (exists l' st',
     static_or xs st = (Ok l', st')
     /\ lookup st' l'
        = Some (mkRoot (alt (map (valueNode st) xs)) "" "" "gi"))
  /\ (exists l' st',
        static_seq xs st = (Ok l', st')
        /\ lookup st' l'
           = Some (mkRoot (Sequence (map (valueNode st) xs)) "" "" "gi")).
Proof.
  intros Hlive. split.
  - apply (static_run alt xs st Hlive).
  - apply (static_run seq xs st Hlive).
Qed.

Lemma X10_static_combinators_keep_only_the_nodes_witness :
  exists l' st',
    static_or [VRegExp "^a$" "m"; VString "b"] (initial false) = (Ok l', st')
    /\ lookup st' l'
       = Some (mkRoot (Alternation [Literal "a" false; Literal "b" true])
                      "" "" "gi").
Proof.
  destruct (X10_static_combinators_keep_only_the_nodes
              [VRegExp "^a$" "m"; VString "b"] (initial false))
    as (H & _).
  - repeat constructor.
  - exact H.
Defined.

End Statics.

(* ===================================================================== *)
(** ** The flag toggles and the quantifier shorthands *)
(* ===================================================================== *)

Section Toggles.
Import RegexAst SolidExpression.

Lemma mem_ascii_app c l1 l2 :
  mem_ascii c (l1 ++ l2) = mem_ascii c l1 || mem_ascii c l2.
Proof. apply existsb_app. Qed.

Lemma mem_ascii_add1 c d fs :
  mem_ascii c (add_chars fs [d]) = mem_ascii c fs || Ascii.eqb c d.
Proof.
  cbn [add_chars]. destruct (mem_ascii d fs) eqn:Hd.
  - destruct (Ascii.eqb_spec c d) as [->|]; [|now rewrite orb_false_r].
    now rewrite Hd.
  - rewrite mem_ascii_app. simpl. now rewrite orb_false_r.
Qed.

Lemma mem_ascii_filter (P : ascii -> bool) c fs :
  mem_ascii c (filter P fs) = mem_ascii c fs && P c.
Proof.
  unfold mem_ascii. induction fs as [|a fs IH]; [reflexivity|].
  cbn [filter existsb]. destruct (Ascii.eqb_spec c a) as [->|Hne].
  - destruct (P a) eqn:Pa; cbn [existsb orb andb].
    + now rewrite Ascii.eqb_refl.
    + rewrite IH, ?andb_false_r. reflexivity.
  - destruct (P a) eqn:Pa; cbn [existsb orb].
    + apply Ascii.eqb_neq in Hne. rewrite ?Hne. exact IH.
    + apply Ascii.eqb_neq in Hne. rewrite ?Hne. exact IH.
Qed.

Lemma mem_ascii_remove1 c d fs :
  mem_ascii c (remove_chars fs [d]) = mem_ascii c fs && negb (Ascii.eqb c d).
Proof.
  unfold remove_chars. rewrite mem_ascii_filter.
  unfold mem_ascii at 2. cbn [existsb]. now rewrite orb_false_r.
Qed.

Lemma hasFlag_addFlags c d r :
  hasFlag c (addFlags r (str1 d)) = hasFlag c r || Ascii.eqb c d.
Proof.
  unfold hasFlag, addFlags. cbn [flags].
  rewrite list_ascii_of_string_of_list_ascii. apply mem_ascii_add1.
Qed.

Lemma hasFlag_removeFlags c d r :
  hasFlag c (removeFlags r (str1 d)) = hasFlag c r && negb (Ascii.eqb c d).
Proof.
  unfold hasFlag, removeFlags. cbn [flags].
  rewrite list_ascii_of_string_of_list_ascii. apply mem_ascii_remove1.
Qed.

Lemma toggle_flag c d r (on : bool) :
  hasFlag c (if on then addFlags r (str1 d) else removeFlags r (str1 d))
  = if Ascii.eqb c d then on else hasFlag c r.
Proof.
  destruct on; [rewrite hasFlag_addFlags | rewrite hasFlag_removeFlags];
    destruct (Ascii.eqb c d); cbn [negb];
    rewrite ?orb_true_r, ?orb_false_r, ?andb_true_r, ?andb_false_r;
    reflexivity.
Qed.

(** X11.  The three flag toggles, as the code has them.  On a live receiver
    each succeeds and returns a new expression with the receiver's node and
    anchors, in which one flag is decided by the argument and every other
    flag is as in the receiver: [withAnyCase(enable)] makes [i] present
    exactly when [enable] (default true); [stopAtFirst(enable)] makes [g]
    present exactly when [enable] ([stopAtFirst(true)] adds the global
    flag); [searchOneLine(enable)] makes [m] present exactly when [enable]
    is false. *)
Theorem X11_flag_toggles (this : loc) (st : state) (r : RootNode)
        (enable : option bool) :
  lookup st this = Some r ->
  let on := dflt true enable in
  exists ri rg rm,
    withAnyCase this enable st
    = (Ok (List.length (heap st)), grow st [Some ri])
    /\ stopAtFirst this enable st
       = (Ok (List.length (heap st)), grow st [Some rg])
    /\ searchOneLine this enable st
       = (Ok (List.length (heap st)), grow st [Some rm])
    /\ (forall c, hasFlag c ri = if Ascii.eqb c "i" then on else hasFlag c r)
    /\ (forall c, hasFlag c rg = if Ascii.eqb c "g" then on else hasFlag c r)
    /\ (forall c, hasFlag c rm
                  = if Ascii.eqb c "m" then negb on else hasFlag c r)
    /\ (node ri, prefix ri, suffix ri) = (node r, prefix r, suffix r)
    /\ (node rg, prefix rg, suffix rg) = (node r, prefix r, suffix r)
    /\ (node rm, prefix rm, suffix rm) = (node r, prefix r, suffix r).
Proof.
  intros Hr on.
  exists (if on then addFlags r "i" else removeFlags r "i").
  exists (if on then addFlags r "g" else removeFlags r "g").
  exists (if negb on then addFlags r "m" else removeFlags r "m").
  unfold withAnyCase, stopAtFirst, searchOneLine, addFlag, removeFlag.
  fold on.
  split; [destruct on; now rewrite (node_method_run _ this st r Hr)|].
  split; [destruct on; now rewrite (node_method_run _ this st r Hr)|].
  split; [destruct on; now rewrite (node_method_run _ this st r Hr)|].
  split; [intros c; apply (toggle_flag c "i" r on)|].
  split; [intros c; apply (toggle_flag c "g" r on)|].
  split; [intros c; apply (toggle_flag c "m" r (negb on))|].
  destruct on; repeat split.
Qed.

Lemma X11_flag_toggles_witness :
  exists rg,
    stopAtFirst SolidExpression.digit (Some true) (initial false)
    = (Ok 7%nat, grow (initial false) [Some rg])
    /\ hasFlag "g" rg = true.
Proof.
  destruct (X11_flag_toggles SolidExpression.digit (initial false)
              (mkRoot (BuiltIn Digit) "" "" "gi") (Some true) eq_refl)
    as (ri & rg & rm & _ & Hg & _ & _ & Hfg & _).
  exists rg. split; [exact Hg|]. apply (Hfg "g"%char).
Defined.



End Toggles.

(* ===================================================================== *)
(** ** How an operation can fail *)
(* ===================================================================== *)

Section Failures.
Import RegexAst SolidExpression.





End Failures.

(* ===================================================================== *)
(** ** The two anchors *)
(* ===================================================================== *)

Section AnchorCalls.
Import RegexAst SolidExpression.

Lemma assertStartOfLine_run this a st r :
  lookup st this = Some r ->
  assertStartOfLine this a st
  = (Ok (List.length (heap st)),
     grow st [Some (setPrefix r (if dflt true a then "^" else ""))]).
Proof.
  intros Hr. unfold assertStartOfLine. now rewrite setPrefix_run, Hr.
Qed.

Lemma assertEndOfLine_run this b st r :
  lookup st this = Some r ->
  assertEndOfLine this b st
  = (Ok (List.length (heap st)),
     grow st [Some (setSuffix r (if dflt true b then "$" else ""))]).
Proof.
  intros Hr. unfold assertEndOfLine. now rewrite setSuffix_run, Hr.
Qed.

Lemma chain2_run o1 o2 this st r1 r2 :
  apply o1 this st = (Ok (List.length (heap st)), grow st [Some r1]) ->
  (forall s, lookup s (List.length (heap st)) = Some r1 ->
     apply o2 (List.length (heap st)) s
     = (Ok (List.length (heap s)), grow s [Some r2])) ->
  exists l' st',
    chain [o1; o2] this st = (Ok l', st') /\ lookup st' l' = Some r2.
Proof.
  intros H1 H2. cbn [chain]. unfold bind at 1. rewrite H1.
  unfold bind. rewrite (H2 _ (lookup_grow_new st r1)). unfold ret.
  do 2 eexists. split; [reflexivity | apply lookup_grow_new].
Qed.

(** X14.  The two anchors are set independently and the last call of each
    decides: calling [assertStartOfLine(a)] and [assertEndOfLine(b)] in
    either order gives an expression with the receiver's node and flags,
    the prefix chosen by [a] and the suffix chosen by [b]; calling
    [assertEndOfLine] twice leaves the suffix chosen by the second call. *)
Theorem X14_anchor_calls_commute_and_the_last_wins
        (this : loc) (st : state) (r : RootNode) (a b : option bool) :
  lookup st this = Some r ->
  let pre := if dflt true a then "^" else "" in
  let suf := if dflt true b then "$" else "" in
  (exists l' st',
     chain [AssertStartOfLine a; AssertEndOfLine b] this st = (Ok l', st')
     /\ lookup st' l' = Some (mkRoot (node r) pre suf (flags r)))
  /\ (exists l' st',
        chain [AssertEndOfLine b; AssertStartOfLine a] this st = (Ok l', st')
        /\ lookup st' l' = Some (mkRoot (node r) pre suf (flags r)))
  /\ (exists l' st',
        chain [AssertEndOfLine a; AssertEndOfLine b] this st = (Ok l', st')
        /\ lookup st' l' = Some (mkRoot (node r) (prefix r) suf (flags r)))
  /\ (exists l' st',
        chain [AssertStartOfLine b; AssertStartOfLine a] this st
        = (Ok l', st')
        /\ lookup st' l' = Some (mkRoot (node r) pre (suffix r) (flags r))).
Proof.
  intros Hr pre suf. repeat split.
  - eapply chain2_run.
    + apply (assertStartOfLine_run this a st r Hr).
    + intros s Hs. apply (assertEndOfLine_run _ b s _ Hs).
  - eapply chain2_run.
    + apply (assertEndOfLine_run this b st r Hr).
    + intros s Hs. apply (assertStartOfLine_run _ a s _ Hs).
  - eapply chain2_run.
    + apply (assertEndOfLine_run this a st r Hr).
    + intros s Hs. apply (assertEndOfLine_run _ b s _ Hs).
  - eapply chain2_run.
    + apply (assertStartOfLine_run this b st r Hr).
    + intros s Hs. apply (assertStartOfLine_run _ a s _ Hs).
Qed.

Lemma X14_anchor_calls_commute_and_the_last_wins_witness :
  exists l' st',
    chain [AssertEndOfLine None; AssertStartOfLine (Some true)]
          SolidExpression.word (initial false) = (Ok l', st')
    /\ lookup st' l' = Some (mkRoot (BuiltIn Word) "^" "$" "gi").
Proof.
  destruct (X14_anchor_calls_commute_and_the_last_wins
              SolidExpression.word (initial false)
              (mkRoot (BuiltIn Word) "" "" "gi") (Some true) None eq_refl)
    as (_ & H & _).
  exact H.
Defined.

End AnchorCalls.
